(** * create_instagram_agent.py: a shallow embedding and its properties

    The program fetches an article, extracts a record from the parsed page
    ([scrape_article]), asks a generative model for a caption, repairs the
    JSON it gets back ([generate_instagram_post]), fills identity fields and
    records the used angle in a JSON history file ([main], [load_history],
    [save_history]).  At import it reads a [.env] file by hand when [dotenv]
    is not installed ([manual_env_loader]).

    What the program receives from outside is an input of the model: the
    document tree BeautifulSoup builds, the text the generative model
    answers, the state of the history file and whether the operating system
    lets the program write it.  What the Python runtime and its [json]
    module do with strings and JSON text is written out below, since the
    program's behaviour is made of it.

    The interpreter's own limits are left out: the decoder below recurses as
    deep as the document is nested and reads integer literals of any
    length.  Messages printed to [stderr] are not part of the model. *)

From Stdlib Require Import String Ascii.
From Stdlib Require Import List Bool Arith ZArith NArith Lia.
From Stdlib Require Import Floats.SpecFloat.
Import ListNotations.

Set Implicit Arguments.

(** ** Python strings

    A [str] is a sequence of Unicode code points; [len] counts code points
    and every operation below works on them. *)

Definition char := N.
Definition str := list char.

(** [lit "abc"] is the Python literal ['abc'] (characters below 256). *)
Definition lit (s : string) : str :=
  List.map N_of_ascii (list_ascii_of_string s).

Definition char_eqb (a b : char) : bool := N.eqb a b.

Fixpoint str_eqb (a b : str) : bool :=
  match a, b with
  | [], [] => true
  | x :: a', y :: b' => char_eqb x y && str_eqb a' b'
  | _, _ => false
  end.

(** [s.startswith(p)] *)
Fixpoint startswith (p s : str) : bool :=
  match p, s with
  | [], _ => true
  | x :: p', y :: s' => char_eqb x y && startswith p' s'
  | _ :: _, [] => false
  end.

(** [sub in s] for two strings: [sub] occurs at some position of [s]. *)
Fixpoint str_in (sub s : str) : bool :=
  startswith sub s ||
  match s with
  | [] => false
  | _ :: s' => str_in sub s'
  end.

(** The scan of [s.replace(old, new)] for a non-empty [old]: occurrences are
    taken left to right and do not overlap.  [skip] counts the characters of
    an occurrence that are still to be dropped. *)
Fixpoint replace_scan (old new : str) (skip : nat) (s : str) : str :=
  match s with
  | [] => []
  | c :: s' =>
      match skip with
      | S k => replace_scan old new k s'
      | O =>
          if startswith old s
          then new ++ replace_scan old new (length old - 1) s'
          else c :: replace_scan old new 0 s'
      end
  end.

(** [s.replace(old, new)]; with an empty [old] Python puts [new] before
    every character and at the end. *)
Definition replace (old new s : str) : str :=
  match old with
  | [] => new ++ List.concat (List.map (fun c => c :: new) s)
  | _ :: _ => replace_scan old new 0 s
  end.

(** [c.isspace()]: the code points Python's [str.strip()] removes. *)
Definition isspace (c : char) : bool :=
  (((9 <=? c) && (c <=? 13)) || ((28 <=? c) && (c <=? 32))
   || (c =? 133) || (c =? 160) || (c =? 5760)
   || ((8192 <=? c) && (c <=? 8202))
   || (c =? 8232) || (c =? 8233) || (c =? 8239) || (c =? 8287)
   || (c =? 12288))%N.

Fixpoint lstrip (s : str) : str :=
  match s with
  | [] => []
  | c :: s' => if isspace c then lstrip s' else s
  end.

Definition rstrip (s : str) : str := rev (lstrip (rev s)).

(** [s.strip()] *)
Definition strip (s : str) : str := rstrip (lstrip s).

(** [sep.join(parts)] *)
Fixpoint join (sep : str) (parts : list str) : str :=
  match parts with
  | [] => []
  | [p] => p
  | p :: rest => p ++ sep ++ join sep rest
  end.

(** [s.split(sep)] for a one-character separator: the pieces between the
    separators, empty pieces included. *)
Fixpoint split_char (sep : char) (cur : str) (s : str) : list str :=
  match s with
  | [] => [rev cur]
  | c :: s' =>
      if char_eqb c sep then rev cur :: split_char sep [] s'
      else split_char sep (c :: cur) s'
  end.

(** Truth value of a string: [bool(s)]. *)
Definition str_truthy (s : str) : bool :=
  match s with [] => false | _ :: _ => true end.

(** ** Exceptions

    A computation that can raise returns [Ok v] or [Raise e]. *)

Inductive exn :=
| TypeError | AttributeError | KeyError
| OSError | UnicodeDecodeError | RecursionError.

Inductive res (A : Type) :=
| Ok (v : A)
| Raise (e : exn).
Arguments Ok {A} v.
Arguments Raise {A} e.

Definition bind {A B} (m : res A) (k : A -> res B) : res B :=
  match m with
  | Ok v => k v
  | Raise e => Raise e
  end.

Notation "x <- m ;; k" := (bind m (fun x => k))
  (at level 61, m at next level, right associativity).

(** ** Python values of JSON shape

    What [json.loads] builds and what the program passes around: [None],
    [bool], [int], [float] (a binary64 number), [str], [list] and [dict].
    A [dict] keeps its keys in insertion order and holds each key once. *)

#[warnings="-register-all"]
Inductive json :=
| JNull
| JBool (b : bool)
| JInt (z : Z)
| JFloat (f : spec_float)
| JStr (s : str)
| JArr (items : list json)
| JObj (members : list (str * json)).

Section Dict.
Variable V : Type.

(** [d.get(k)] *)
Fixpoint dict_get (d : list (str * V)) (k : str) : option V :=
  match d with
  | [] => None
  | (k', v) :: d' => if str_eqb k' k then Some v else dict_get d' k
  end.

(** [k in d] *)
Definition dict_has (d : list (str * V)) (k : str) : bool :=
  match dict_get d k with Some _ => true | None => false end.

(** [d[k] = v]: an existing key keeps its place, a new key goes last. *)
Fixpoint dict_set (d : list (str * V)) (k : str) (v : V) : list (str * V) :=
  match d with
  | [] => [(k, v)]
  | (k', v') :: d' =>
      if str_eqb k' k then (k', v) :: d' else (k', v') :: dict_set d' k v
  end.

(** [dict(pairs)] *)
Definition dict_of_pairs (pairs : list (str * V)) : list (str * V) :=
  fold_left (fun d kv => dict_set d (fst kv) (snd kv)) pairs [].
End Dict.

(** The exact value of a binary64 number compared with an integer. *)
Definition float_eq_int (f : spec_float) (z : Z) : bool :=
  match f with
  | S754_zero _ => (z =? 0)%Z
  | S754_finite s m e =>
      let v := if s then Z.neg m else Z.pos m in
      if (0 <=? e)%Z then (z =? v * 2 ^ e)%Z else (z * 2 ^ (- e) =? v)%Z
  | _ => false
  end.

Definition float_is_zero (f : spec_float) : bool :=
  match f with S754_zero _ => true | _ => false end.

(** [bool(v)] *)
Definition truthy (v : json) : bool :=
  match v with
  | JNull => false
  | JBool b => b
  | JInt z => negb (z =? 0)%Z
  | JFloat f => negb (float_is_zero f)
  | JStr s => str_truthy s
  | JArr l => match l with [] => false | _ :: _ => true end
  | JObj d => match d with [] => false | _ :: _ => true end
  end.

(** Numbers compare by value across [bool], [int] and [float]. *)
Inductive number :=
| NumInt (z : Z)
| NumFloat (f : spec_float).

Definition as_number (v : json) : option number :=
  match v with
  | JBool b => Some (NumInt (if b then 1 else 0))
  | JInt z => Some (NumInt z)
  | JFloat f => Some (NumFloat f)
  | _ => None
  end.

Definition number_eqb (a b : number) : bool :=
  match a, b with
  | NumInt x, NumInt y => (x =? y)%Z
  | NumInt x, NumFloat g => float_eq_int g x
  | NumFloat f, NumInt y => float_eq_int f y
  | NumFloat f, NumFloat g => SFeqb f g
  end.

(** [float('nan')]: the one value that is not equal to itself. *)
Definition is_nan (v : json) : bool :=
  match v with
  | JFloat S754_nan => true
  | _ => false
  end.

(** [PyObject_RichCompareBool(a, b, Py_EQ)], the comparison that [in] and
    the equality of lists and of dicts apply to elements: the same object,
    or equal.  The decoder hands out one object for every [NaN] it reads,
    so two [NaN] pass although they are not equal; any other two values
    that are the same object are equal as well. *)
Fixpoint same_or_eq (a b : json) : bool :=
  match a with
  | JNull => match b with JNull => true | _ => false end
  | JStr s => match b with JStr t => str_eqb s t | _ => false end
  | JArr l =>
      match b with
      | JArr m =>
          (fix all2 (l m : list json) : bool :=
             match l, m with
             | [], [] => true
             | x :: l', y :: m' => same_or_eq x y && all2 l' m'
             | _, _ => false
             end) l m
      | _ => false
      end
  | JObj d =>
      match b with
      | JObj e =>
          Nat.eqb (length d) (length e) &&
          (fix sub (d : list (str * json)) : bool :=
             match d with
             | [] => true
             | (k, v) :: d' =>
                 match dict_get e k with
                 | Some w => same_or_eq v w
                 | None => false
                 end && sub d'
             end) d
      | _ => false
      end
  | JBool _ | JInt _ | JFloat _ =>
      (is_nan a && is_nan b) ||
      match as_number a, as_number b with
      | Some x, Some y => number_eqb x y
      | _, _ => false
      end
  end.

(** [a == b] *)
Definition py_eq (a b : json) : bool :=
  negb (is_nan a && is_nan b) && same_or_eq a b.

(** [x in l] for a list [l] *)
Definition list_in (x : json) (l : list json) : bool :=
  existsb (same_or_eq x) l.

(** ** Numbers as text

    [int.__repr__], [int(...)], [float(...)] and [float.__repr__], which
    [json] uses for number literals. *)

Local Open Scope N_scope.

Definition digit_char (d : N) : char := 48 + d.

Fixpoint uint_chars (u : Decimal.uint) : str :=
  match u with
  | Decimal.Nil => []
  | Decimal.D0 u' => digit_char 0 :: uint_chars u'
  | Decimal.D1 u' => digit_char 1 :: uint_chars u'
  | Decimal.D2 u' => digit_char 2 :: uint_chars u'
  | Decimal.D3 u' => digit_char 3 :: uint_chars u'
  | Decimal.D4 u' => digit_char 4 :: uint_chars u'
  | Decimal.D5 u' => digit_char 5 :: uint_chars u'
  | Decimal.D6 u' => digit_char 6 :: uint_chars u'
  | Decimal.D7 u' => digit_char 7 :: uint_chars u'
  | Decimal.D8 u' => digit_char 8 :: uint_chars u'
  | Decimal.D9 u' => digit_char 9 :: uint_chars u'
  end.

(** [repr(z)] for an integer *)
Definition int_repr (z : Z) : str :=
  match Z.to_int z with
  | Decimal.Pos u => uint_chars u
  | Decimal.Neg u => 45 :: uint_chars u
  end.

Definition is_digit (c : char) : bool := (48 <=? c) && (c <=? 57).

(** The integer a string of decimal digits denotes. *)
Definition digits_value (ds : str) : Z :=
  fold_left (fun acc c => (10 * acc + (Z.of_N c - 48))%Z) ds 0%Z.

(** binary64 *)
Definition prec : Z := 53.
Definition emax : Z := 1024.

(** [float(...)] of the decimal number [m * 10 ^ e10] with sign [neg]: the
    nearest binary64 number, ties to even. *)
Definition float_of_decimal (neg : bool) (m e10 : Z) : spec_float :=
  match m with
  | Zpos _ =>
      if (0 <=? e10)%Z then
        match (m * 10 ^ e10)%Z with
        | Zpos q => binary_round prec emax neg q 0
        | _ => S754_zero neg
        end
      else
        let '(q, e, loc) := SFdiv_core_binary prec emax m 0 (10 ^ (- e10)) 0 in
        binary_round_aux prec emax neg q e loc
  | _ => S754_zero neg
  end.

(** The number of decimal digits before the point of [a / b], for
    [0 < a] and [0 < b]: the [k] with [10 ^ (k-1) <= a / b < 10 ^ k]. *)
Definition decimal_point (a b : Z) : Z :=
  let k0 := (Z.log2 a - Z.log2 b)%Z in
  (* 10 ^ k is searched near log10 (a / b) *)
  let guess := (k0 * 1233 / 4096 - 2)%Z in
  (fix up (fuel : nat) (k : Z) : Z :=
     match fuel with
     | O => k
     | S fuel' =>
         let below :=
           if (0 <=? k)%Z then (a <? b * 10 ^ k)%Z
           else (a * 10 ^ (- k) <? b)%Z in
         if below then k else up fuel' (k + 1)%Z
     end) 8%nat guess.

(** [floor (a / b * 10 ^ x)] *)
Definition scaled_floor (a b x : Z) : Z :=
  if (0 <=? x)%Z then (a * 10 ^ x / b)%Z else (a / (b * 10 ^ (- x)))%Z.

(** Twice the remainder of that division compared with the divisor: where
    [a / b * 10 ^ x] lies between its floor and the next integer. *)
Definition scaled_half (a b x : Z) : comparison :=
  if (0 <=? x)%Z then (2 * ((a * 10 ^ x) mod b) ?= b)%Z
  else (2 * (a mod (b * 10 ^ (- x))) ?= b * 10 ^ (- x))%Z.

Fixpoint strip_zeros (fuel : nat) (d k : Z) : Z * Z :=
  match fuel with
  | O => (d, k)
  | S fuel' =>
      if ((d mod 10 =? 0) && negb (d =? 0))%Z
      then strip_zeros fuel' (d / 10)%Z (k + 1)%Z
      else (d, k)
  end.

(** The shortest decimal [d * 10 ^ x] that [float] reads back as the
    positive number [m * 2 ^ e]; among the shortest, the nearest. *)
Definition shortest_decimal (m : positive) (e : Z) : Z * Z :=
  let a := if (0 <=? e)%Z then (Zpos m * 2 ^ e)%Z else Zpos m in
  let b := if (0 <=? e)%Z then 1%Z else (2 ^ (- e))%Z in
  let k := decimal_point a b in
  let back d x := match float_of_decimal false d x with
                  | S754_finite _ m' e' => (Pos.eqb m m' && (e =? e')%Z)%bool
                  | _ => false
                  end in
  (fix try (todo : nat) (n : Z) : Z * Z :=
     let x := (k - n)%Z in
     let lo := scaled_floor a b (- x) in
     let hi := (lo + 1)%Z in
     let nearest :=
       match scaled_half a b (- x) with
       | Lt => lo
       | Gt => hi
       | Eq => if Z.even lo then lo else hi
       end in
     match todo with
     | O => strip_zeros 20 nearest x
     | S todo' =>
         if back nearest x then strip_zeros 20 nearest x
         else if back lo x then strip_zeros 20 lo x
         else if back hi x then strip_zeros 20 hi x
         else try todo' (n + 1)%Z
     end) 16%nat 1%Z.

Definition zeros (n : Z) : str := repeat (digit_char 0) (Z.to_nat n).

(** [repr(f)] for a float: the shortest digits, written with an exponent
    when the decimal point falls outside [-4 < point <= 16]. *)
Definition float_repr (f : spec_float) : str :=
  match f with
  | S754_nan => lit "nan"
  | S754_infinity s => if s then lit "-inf" else lit "inf"
  | S754_zero s => if s then lit "-0.0" else lit "0.0"
  | S754_finite s m e =>
      let '(d, x) := shortest_decimal m e in
      let ds := int_repr d in
      let n := Z.of_nat (length ds) in
      let point := (n + x)%Z in
      let body :=
        if ((point <=? -4) || (16 <? point))%Z then
          let ex := (point - 1)%Z in
          let mant := match ds with
                      | [] => []
                      | [c] => [c]
                      | c :: more => c :: 46 :: more
                      end in
          let exs := int_repr (Z.abs ex) in
          mant ++ [101; if (ex <? 0)%Z then 45 else 43]
               ++ (match exs with [c] => [digit_char 0; c] | _ => exs end)
        else if (point <=? 0)%Z then
          lit "0." ++ zeros (- point) ++ ds
        else if (n <=? point)%Z then
          ds ++ zeros (point - n) ++ lit ".0"
        else
          firstn (Z.to_nat point) ds ++ 46 :: skipn (Z.to_nat point) ds
      in
      if s then 45 :: body else body
  end.

(** ** [json.dump(obj, f, indent=2, ensure_ascii=False)]

    The text the encoder produces.  With [ensure_ascii=False] only the
    quote, the backslash and the control characters are escaped; every other
    character, ASCII or not, is written as it is. *)

Definition hex_digit (d : N) : char :=
  if d <? 10 then 48 + d else 87 + d.

Definition escape_char (c : char) : str :=
  if c =? 34 then lit "\" ++ [34]
  else if c =? 92 then lit "\\"
  else if c =? 10 then lit "\n"
  else if c =? 13 then lit "\r"
  else if c =? 9 then lit "\t"
  else if c =? 8 then lit "\b"
  else if c =? 12 then lit "\f"
  else if c <? 32 then lit "\u00" ++ [hex_digit (c / 16); hex_digit (c mod 16)]
  else [c].

(** [py_encode_basestring] *)
Definition encode_basestring (s : str) : str :=
  34 :: List.concat (List.map escape_char s) ++ [34].

(** A line break followed by the indentation of nesting level [level]. *)
Definition newline_indent (level : nat) : str :=
  10 :: repeat 32 (2 * level)%nat.

Definition floatstr (f : spec_float) : str :=
  match f with
  | S754_nan => lit "NaN"
  | S754_infinity s => if s then lit "-Infinity" else lit "Infinity"
  | _ => float_repr f
  end.

Fixpoint encode (level : nat) (v : json) : str :=
  match v with
  | JNull => lit "null"
  | JBool b => if b then lit "true" else lit "false"
  | JInt z => int_repr z
  | JFloat f => floatstr f
  | JStr s => encode_basestring s
  | JArr [] => lit "[]"
  | JArr (x :: l) =>
      lit "[" ++ newline_indent (S level) ++ encode (S level) x
      ++ (fix items (l : list json) : str :=
            match l with
            | [] => []
            | y :: l' =>
                lit "," ++ newline_indent (S level) ++ encode (S level) y
                ++ items l'
            end) l
      ++ newline_indent level ++ lit "]"
  | JObj [] => lit "{}"
  | JObj ((k, x) :: d) =>
      lit "{" ++ newline_indent (S level)
      ++ encode_basestring k ++ lit ": " ++ encode (S level) x
      ++ (fix members (d : list (str * json)) : str :=
            match d with
            | [] => []
            | (k', y) :: d' =>
                lit "," ++ newline_indent (S level)
                ++ encode_basestring k' ++ lit ": " ++ encode (S level) y
                ++ members d'
            end) d
      ++ newline_indent level ++ lit "}"
  end.

Definition json_dumps (v : json) : str := encode 0 v.

(** ** [json.loads]

    The decoder reads a prefix of its input and hands back the rest.  Its
    recursion follows the nesting of the document; [fuel] bounds it, and
    [Exhausted] stands for a recursion that was cut off. *)

Inductive parsed (A : Type) :=
| Parsed (v : A) (rest : str)
| Malformed
| Exhausted.
Arguments Parsed {A} v rest.
Arguments Malformed {A}.
Arguments Exhausted {A}.

Definition is_ws (c : char) : bool :=
  (c =? 32) || (c =? 9) || (c =? 10) || (c =? 13).

Fixpoint skip_ws (s : str) : str :=
  match s with
  | [] => []
  | c :: s' => if is_ws c then skip_ws s' else s
  end.

Definition hex_value (c : char) : option N :=
  if is_digit c then Some (c - 48)
  else if (97 <=? c) && (c <=? 102) then Some (c - 87)
  else if (65 <=? c) && (c <=? 70) then Some (c - 55)
  else None.

(** [_decode_uXXXX]: four hexadecimal digits *)
Definition decode_hex4 (a b c d : char) : option N :=
  match hex_value a, hex_value b, hex_value c, hex_value d with
  | Some x, Some y, Some z, Some w => Some (((x * 16 + y) * 16 + z) * 16 + w)
  | _, _, _, _ => None
  end.

Definition unescape (c : char) : option char :=
  if c =? 34 then Some 34
  else if c =? 92 then Some 92
  else if c =? 47 then Some 47
  else if c =? 98 then Some 8
  else if c =? 102 then Some 12
  else if c =? 110 then Some 10
  else if c =? 114 then Some 13
  else if c =? 116 then Some 9
  else None.

(** The character an escape [\uXXXX] stands for, and the input after it.
    [s] is the input after the four digits that gave [uni]; a high surrogate
    that is followed by the escape of a low surrogate is combined with it.
    [None]: the escape that follows is broken. *)
Definition surrogate_pair (uni : N) (s : str) : option (char * str) :=
  if (55296 <=? uni) && (uni <=? 56319) && startswith (lit "\u") s then
    match skipn 2 s with
    | g1 :: g2 :: g3 :: g4 :: s' =>
        match decode_hex4 g1 g2 g3 g4 with
        | None => None
        | Some uni2 =>
            if (56320 <=? uni2) && (uni2 <=? 57343)
            then Some (65536 + N.lor (N.shiftl (uni - 55296) 10)
                                     (uni2 - 56320), s')
            else Some (uni, s)
        end
    | _ => None
    end
  else Some (uni, s).

(** [scanstring] in strict mode, from just after the opening quote.
    [fuel] bounds the number of characters read; [acc] holds the characters
    read so far, last first. *)
Fixpoint scanstring_from (fuel : nat) (acc : str) (s : str)
  : option (str * str) :=
  match fuel with
  | O => None
  | S fuel' =>
      match s with
      | [] => None
      | c :: s1 =>
          if c =? 34 then Some (rev acc, s1)
          else if c <? 32 then None
          else if c =? 92 then
            match s1 with
            | [] => None
            | esc :: s2 =>
                if esc =? 117 then
                  match s2 with
                  | h1 :: h2 :: h3 :: h4 :: s3 =>
                      match decode_hex4 h1 h2 h3 h4 with
                      | None => None
                      | Some uni =>
                          match surrogate_pair uni s3 with
                          | Some (ch, s4) => scanstring_from fuel' (ch :: acc) s4
                          | None => None
                          end
                      end
                  | _ => None
                  end
                else
                  match unescape esc with
                  | Some ch => scanstring_from fuel' (ch :: acc) s2
                  | None => None
                  end
            end
          else scanstring_from fuel' (c :: acc) s1
      end
  end.

(** Every step reads at least one character, so the length of the input is
    fuel enough. *)
Definition scanstring (s : str) : option (str * str) :=
  scanstring_from (length s) [] s.

(** The longest run of decimal digits at the head of [s]. *)
Fixpoint span_digits (s : str) : str * str :=
  match s with
  | [] => ([], [])
  | c :: s' =>
      if is_digit c
      then let '(ds, rest) := span_digits s' in (c :: ds, rest)
      else ([], s)
  end.

(** [NUMBER_RE], piece by piece: an optional minus sign; an integer part
    that is 0 or starts with a non-zero digit; optionally a point and at
    least one digit; optionally e or E, a sign and at least one digit. *)
Definition lex_sign (s : str) : bool * str :=
  match s with
  | c :: s' => if c =? 45 then (true, s') else (false, s)
  | [] => (false, s)
  end.

Definition lex_integer (s : str) : option (str * str) :=
  match s with
  | [] => None
  | c :: s' =>
      if c =? 48 then Some ([c], s')
      else if is_digit c then Some (span_digits s)
      else None
  end.

Definition lex_fraction (s : str) : str * str :=
  match s with
  | c :: s' =>
      if c =? 46 then
        match span_digits s' with
        | ([], _) => ([], s)
        | (fs, rest) => (fs, rest)
        end
      else ([], s)
  | [] => ([], s)
  end.

Definition lex_exponent (s : str) : option (Z * str) :=
  match s with
  | c :: s' =>
      if (c =? 101) || (c =? 69) then
        let '(eneg, s1) :=
          match s' with
          | sign :: s'' =>
              if sign =? 45 then (true, s'')
              else if sign =? 43 then (false, s'')
              else (false, s')
          | [] => (false, s')
          end in
        match span_digits s1 with
        | ([], _) => None
        | (es, rest) =>
            Some (if eneg then (- digits_value es)%Z else digits_value es,
                  rest)
        end
      else None
  | [] => None
  end.

(** An integer literal is read with [int], one with a fraction or an
    exponent with [float]. *)
Definition match_number (s : str) : option (json * str) :=
  let '(neg, s0) := lex_sign s in
  match lex_integer s0 with
  | None => None
  | Some (ip, s1) =>
      let '(frac, s2) := lex_fraction s1 in
      match frac, lex_exponent s2 with
      | [], None =>
          let z := digits_value ip in
          Some (JInt (if neg then (- z)%Z else z), s2)
      | _, None =>
          Some (JFloat (float_of_decimal neg (digits_value (ip ++ frac))
                          (- Z.of_nat (length frac))), s2)
      | _, Some (ex, rest) =>
          Some (JFloat (float_of_decimal neg (digits_value (ip ++ frac))
                          (ex - Z.of_nat (length frac))), rest)
      end
  end.

Definition after_prefix (p s : str) : option str :=
  if startswith p s then Some (skipn (length p) s) else None.

(** The last branches of [scan_once]: the three names, a number, and the
    three constants that are not numbers. *)
Definition scan_constant (s : str) : parsed json :=
  match after_prefix (lit "null") s,
        after_prefix (lit "true") s,
        after_prefix (lit "false") s with
  | Some rest, _, _ => Parsed JNull rest
  | _, Some rest, _ => Parsed (JBool true) rest
  | _, _, Some rest => Parsed (JBool false) rest
  | None, None, None =>
      match match_number s with
      | Some (v, rest) => Parsed v rest
      | None =>
          match after_prefix (lit "NaN") s,
                after_prefix (lit "Infinity") s,
                after_prefix (lit "-Infinity") s with
          | Some rest, _, _ => Parsed (JFloat S754_nan) rest
          | _, Some rest, _ => Parsed (JFloat (S754_infinity false)) rest
          | _, _, Some rest => Parsed (JFloat (S754_infinity true)) rest
          | None, None, None => Malformed
          end
      end
  end.

(** [scan_once], [JSONArray] and [JSONObject].  The two loops start at the
    first element, respectively just after the opening quote of the first
    key. *)
Fixpoint scan_once (fuel : nat) (s : str) {struct fuel} : parsed json :=
  match fuel with
  | O => Exhausted
  | S n =>
      match s with
      | [] => Malformed
      | c :: s1 =>
          if c =? 34 then
            match scanstring s1 with
            | Some (v, rest) => Parsed (JStr v) rest
            | None => Malformed
            end
          else if c =? 123 then
            match skip_ws s1 with
            | c' :: rest =>
                if c' =? 125 then Parsed (JObj []) rest
                else if c' =? 34 then object_loop n [] rest
                else Malformed
            | [] => Malformed
            end
          else if c =? 91 then
            match skip_ws s1 with
            | c' :: rest =>
                if c' =? 93 then Parsed (JArr []) rest
                else array_loop n [] (c' :: rest)
            | [] => array_loop n [] []
            end
          else scan_constant s
      end
  end

with array_loop (fuel : nat) (acc : list json) (s : str) {struct fuel}
  : parsed json :=
  match fuel with
  | O => Exhausted
  | S n =>
      match scan_once n s with
      | Parsed v rest =>
          match skip_ws rest with
          | c :: rest' =>
              if c =? 93 then Parsed (JArr (rev (v :: acc))) rest'
              else if c =? 44 then array_loop n (v :: acc) (skip_ws rest')
              else Malformed
          | [] => Malformed
          end
      | Malformed => Malformed
      | Exhausted => Exhausted
      end
  end

with object_loop (fuel : nat) (acc : list (str * json)) (s : str)
  {struct fuel} : parsed json :=
  match fuel with
  | O => Exhausted
  | S n =>
      match scanstring s with
      | None => Malformed
      | Some (key, s1) =>
          match skip_ws s1 with
          | c :: s2 =>
              if c =? 58 then
                match scan_once n (skip_ws s2) with
                | Parsed v rest =>
                    match skip_ws rest with
                    | c' :: rest' =>
                        if c' =? 125 then
                          Parsed (JObj (dict_of_pairs (rev ((key, v) :: acc))))
                            rest'
                        else if c' =? 44 then
                          match skip_ws rest' with
                          | q :: s3 =>
                              if q =? 34
                              then object_loop n ((key, v) :: acc) s3
                              else Malformed
                          | [] => Malformed
                          end
                        else Malformed
                    | [] => Malformed
                    end
                | Malformed => Malformed
                | Exhausted => Exhausted
                end
              else Malformed
          | [] => Malformed
          end
      end
  end.

(** [JSONDecoder.decode]: one value with white space around it and nothing
    after. *)
Definition json_loads (s : str) : parsed json :=
  match scan_once (2 * length s + 2) (skip_ws s) with
  | Parsed v rest =>
      match skip_ws rest with
      | [] => Parsed v []
      | _ :: _ => Malformed
      end
  | Malformed => Malformed
  | Exhausted => Exhausted
  end.

(** ** The parsed page

    [BeautifulSoup(response.content, 'html.parser')] is taken as it comes
    out of the parser: a forest of tags and strings.  A string is either
    text ([NavigableString], [CData]), which [get_text] collects, or one of
    the other kinds (a comment, a doctype, the body of a script or style
    element), which it skips.  Attribute values are strings; the attributes
    this program asks for ([property], [name], [content]) are never
    list-valued. *)

#[warnings="-register-all"]
Inductive node :=
| NavigableString (text : bool) (s : str)
| Tag (name : str) (attrs : list (str * str)) (contents : list node).

Definition soup := list node.

(** [tag.descendants]: every node below the tag, in document order. *)
Fixpoint descendants (n : node) : list node :=
  match n with
  | NavigableString _ _ => []
  | Tag _ _ contents =>
      (fix below (l : list node) : list node :=
         match l with
         | [] => []
         | c :: l' => c :: descendants c ++ below l'
         end) contents
  end.

Definition soup_descendants (doc : soup) : list node :=
  List.concat (List.map (fun c => c :: descendants c) doc).

(** [tag.get_text(strip=True)]: the text strings below the tag, each one
    stripped, the empty ones dropped, concatenated without a separator. *)
Definition stripped_strings (l : list node) : list str :=
  List.concat
    (List.map
       (fun n =>
          match n with
          | NavigableString true s =>
              match strip s with
              | [] => []
              | t => [t]
              end
          | _ => []
          end) l).

Definition get_text_strip (n : node) : str :=
  List.concat (stripped_strings (descendants n)).

(** [tag.string]: the only child if it is a string, the [string] of the
    only child if it is a tag, [None] otherwise. *)
Fixpoint node_string (n : node) : option str :=
  match n with
  | NavigableString _ s => Some s
  | Tag _ _ [c] => node_string c
  | Tag _ _ _ => None
  end.

(** [tag.get(key)] *)
Definition attr_get (n : node) (key : str) : option str :=
  match n with
  | Tag _ attrs _ => dict_get attrs key
  | NavigableString _ _ => None
  end.

Definition is_tag (names : list str) (n : node) : bool :=
  match n with
  | Tag name _ _ => existsb (str_eqb name) names
  | NavigableString _ _ => false
  end.

(** [soup.find_all(names)] and [soup.find(name)] *)
Definition find_all (names : list str) (doc : soup) : list node :=
  filter (is_tag names) (soup_descendants doc).

Definition find (name : str) (doc : soup) : option node :=
  hd_error (find_all [name] doc).

(** [soup.find_all('meta', key=value)], [soup.find('meta', key=value)] *)
Definition is_meta (key value : str) (n : node) : bool :=
  is_tag [lit "meta"] n &&
  match attr_get n key with
  | Some v => str_eqb v value
  | None => false
  end.

Definition find_all_meta (key value : str) (doc : soup) : list node :=
  filter (is_meta key value) (soup_descendants doc).

Definition find_meta (key value : str) (doc : soup) : option node :=
  hd_error (find_all_meta key value doc).

(** ** [scrape_article]

    A value that is [None] or a string. *)
Definition opt_truthy (o : option str) : bool :=
  match o with
  | Some s => str_truthy s
  | None => false
  end.

Record article := {
  url : str;
  title : option str;
  structure : list str;
  content : str;
  image_url : option str;
  source_tags : list str
}.

(** What [requests.get], [raise_for_status] and the parser give: an
    exception, or the parsed page. *)
Inductive fetched :=
| FetchError
| Page (doc : soup).

(** Lines 83-88 and 116-118. *)
Definition resolve_title (doc : soup) : option str :=
  let title :=
    match find (lit "title") doc with
    | Some t => node_string t
    | None => Some []
    end in
  let title :=
    match find (lit "h1") doc with
    | Some h1 => Some (get_text_strip h1)
    | None => if opt_truthy title then title else Some (lit "Untitled Article")
    end in
  match find_meta (lit "property") (lit "og:title") doc with
  | Some og_title => attr_get og_title (lit "content")
  | None => title
  end.

(** Lines 96-100: the texts of the paragraphs that are long enough. *)
Definition paragraphs (doc : soup) : list str :=
  filter (fun text => (40 <? length text)%nat)
    (List.map get_text_strip (find_all [lit "p"] doc)).

Definition full_text (doc : soup) : str :=
  join [10; 10] (paragraphs doc).

(** Lines 105-113 and 121-122. *)
Definition resolve_image (doc : soup) : option str :=
  let image_url :=
    match find_meta (lit "property") (lit "og:image") doc with
    | Some og_image => attr_get og_image (lit "content")
    | None =>
        match find_meta (lit "name") (lit "twitter:image") doc with
        | Some tw_image => attr_get tw_image (lit "content")
        | None => Some []
        end
    end in
  match image_url with
  | Some u =>
      if str_truthy u && startswith (lit "http://") u
      then Some (replace (lit "http://") (lit "https://") u)
      else image_url
  | None => None
  end.

(** [list(set(...))] keeps one copy of each tag; the order Python gives
    them is not specified, this model keeps the first occurrences in
    place. *)
Fixpoint dedup (l : list str) : list str :=
  match l with
  | [] => []
  | x :: l' => x :: filter (fun y => negb (str_eqb x y)) (dedup l')
  end.

(** Lines 125-137. *)
Definition resolve_tags (doc : soup) : list str :=
  let keywords :=
    match find_meta (lit "name") (lit "keywords") doc with
    | Some meta_keywords =>
        match attr_get meta_keywords (lit "content") with
        | Some c =>
            if str_truthy c then List.map strip (split_char 44 [] c) else []
        | None => []
        end
    | None => []
    end in
  let article_tags :=
    List.concat
      (List.map
         (fun tag =>
            match attr_get tag (lit "content") with
            | Some c => if str_truthy c then [strip c] else []
            | None => []
            end)
         (find_all_meta (lit "property") (lit "article:tag") doc)) in
  dedup (filter str_truthy (keywords ++ article_tags)).

Definition content_cap : N := 15000.

(** [s[:n]] *)
Fixpoint slice_to (n : N) (s : str) : str :=
  match s with
  | [] => []
  | c :: s' => if n =? 0 then [] else c :: slice_to (N.pred n) s'
  end.

(** [None] stands for the [None] the function returns after it caught an
    exception. *)
Definition scrape_article (u : str) (response : fetched) : option article :=
  match response with
  | FetchError => None
  | Page doc =>
      Some {| url := u;
              title := resolve_title doc;
              structure :=
                List.map get_text_strip (find_all [lit "h2"; lit "h3"] doc);
              content := slice_to content_cap (full_text doc);
              image_url := resolve_image doc;
              source_tags := resolve_tags doc |}
  end.

(** ** The history file

    What the program sees of [instagram_post_history.json] through Python's
    text files: no file; a file [open] refuses to open; a file whose bytes
    are not UTF-8, so that reading it raises; or a file whose contents read
    as the text [s]. *)

Definition HISTORY_FILE : str := lit "instagram_post_history.json".

Inductive file_state :=
| Missing
| Unopenable
| Undecodable
| Text (s : str).

Definition empty_history : json := JObj [].

(** [except json.JSONDecodeError] catches the decoder's own error and
    nothing else. *)
Definition load_history (fs : file_state) : res json :=
  match fs with
  | Missing => Ok empty_history
  | Unopenable => Raise OSError
  | Undecodable => Raise UnicodeDecodeError
  | Text s =>
      match json_loads s with
      | Parsed v _ => Ok v
      | Malformed => Ok empty_history
      | Exhausted => Raise RecursionError
      end
  end.

(** What the operating system does with a write: whether [open(..., 'w')]
    succeeds, whether the text gets written in full, and, when it does
    not, how many characters reach the file and whether the write stopped
    between the bytes of one character ([torn]), which leaves a file that
    is not UTF-8. *)
Record write_env := {
  open_ok : bool;
  write_ok : bool;
  written : nat;
  torn : bool
}.

(** A lone surrogate cannot be encoded as UTF-8. *)
Definition is_surrogate (c : char) : bool := (55296 <=? c) && (c <=? 57343).
Definition encodable (s : str) : bool := forallb (fun c => negb (is_surrogate c)) s.

(** [save_history] catches every exception and prints a warning; the
    result says whether the history was written ([true]) or the warning
    was printed ([false]).  Opening for writing empties the file; a write
    that fails leaves a prefix of the text behind, cut between two
    characters or inside one. *)
Definition save_history (w : write_env) (history : json) (fs : file_state)
  : file_state * bool :=
  if open_ok w then
    let text := json_dumps history in
    if write_ok w && encodable text then (Text text, true)
    else if torn w then (Undecodable, false)
    else (Text (firstn (written w) text), false)
  else (fs, false).

(** [get_api_key], from the values of [GEMINI_API_KEY] and
    [GOOGLE_API_KEY] in the environment. *)
Definition get_api_key (gemini google : option str) : option str :=
  if opt_truthy gemini then gemini else google.

(** ** [generate_instagram_post] *)

Definition dict := list (str * json).

(** Lines 157-159. *)
Definition target_lang (u : str) : str :=
  if str_in (lit "en-gb") u || str_in (lit "/en/") u || str_in (lit "-en-") u
  then lit "en"
  else lit "sv".

(** Lines 162-165: the earlier angles that go into the prompt.  The test
    [article_data['url'] in history] and the subscript after it are outside
    the [try] block; on a history that is not a mapping they raise. *)
Definition previous_angles (history : json) (u : str) : res (option json) :=
  if truthy history then
    match history with
    | JObj h =>
        match dict_get h u with
        | Some angles => Ok (if truthy angles then Some angles else None)
        | None => Ok None
        end
    | JArr l => if list_in (JStr u) l then Raise TypeError else Ok None
    | JStr s => if str_in u s then Raise TypeError else Ok None
    | _ => Raise TypeError
    end
  else Ok None.

(** What the generative model does with the prompt: the call raises, or it
    answers with a text. *)
Inductive reply :=
| ReplyError
| ReplyText (t : str).

(** Lines 210-213. *)
Definition resolve_caption (data : dict) : dict :=
  if dict_has data (lit "post_text") then data
  else
    let content_source :=
      match dict_get data (lit "instagram_post") with
      | Some v => v
      | None => JObj data
      end in
    match content_source with
    | JObj source =>
        match dict_get source (lit "caption_text") with
        | Some caption => dict_set data (lit "post_text") caption
        | None => data
        end
    | _ => data
    end.

Definition garbage : list str :=
  [lit "Caption Text:"; lit "CAPTION:"; lit "**"].

(** Lines 217-230. *)
Definition clean_caption (u : str) (clean : str) : str :=
  let clean := fold_left (fun c g => replace g [] c) garbage clean in
  let clean := if str_in u clean then replace u [] clean else clean in
  strip clean.

(** Lines 216-233.  A ['post_text'] that is not a string has no
    [replace]; the [AttributeError] is caught by the [except] of the
    function, which then returns [None]. *)
Definition post_process (u lang : str) (data : dict) : option dict :=
  match dict_get data (lit "post_text") with
  | None => Some data
  | Some (JStr clean) =>
      Some (dict_set
              (dict_set data (lit "post_text") (JStr (clean_caption u clean)))
              (lit "language") (JStr lang))
  | Some _ => None
  end.

(** Lines 209-235, on the parsed answer.  An answer that is not an object
    raises at the membership test, at [data.get] or at the subscript, inside
    the [try]; [None] stands for the [None] the [except] branch returns. *)
Definition normalize (u : str) (data : json) : option dict :=
  match data with
  | JObj d => post_process u (target_lang u) (resolve_caption d)
  | _ => None
  end.

(** The function from the prompt on.  [api_key] only configures the client
    and the text of the prompt only goes to the model, whose answer is an
    input here. *)
Definition generate_instagram_post (article_data : article) (history : json)
  (answer : reply) : res (option dict) :=
  _ <- previous_angles history (url article_data) ;;
  Ok (match answer with
      | ReplyError => None
      | ReplyText t =>
          match json_loads t with
          | Parsed data _ => normalize (url article_data) data
          | Malformed => None
          | Exhausted => None
          end
      end).

(** ** [main] *)

Definition json_of_opt (o : option str) : json :=
  match o with
  | Some s => JStr s
  | None => JNull
  end.

(** [not result.get(key)] *)
Definition lacks (result : dict) (key : str) : bool :=
  match dict_get result key with
  | Some v => negb (truthy v)
  | None => true
  end.

(** Lines 275-282.  [url] is [args.url]. *)
Definition backfill (u : str) (data : article) (result : dict) : dict :=
  let result :=
    if lacks result (lit "article_url")
    then dict_set result (lit "article_url") (JStr u)
    else result in
  let result :=
    if lacks result (lit "image_url") ||
       match dict_get result (lit "image_url") with
       | Some v => py_eq v (JStr [])
       | None => false
       end
    then dict_set result (lit "image_url") (json_of_opt (image_url data))
    else result in
  if lacks result (lit "title")
  then dict_set result (lit "title") (json_of_opt (title data))
  else result.

(** Lines 290-293. *)
Definition new_angle_of (result : dict) : json :=
  let post_data :=
    match dict_get result (lit "instagram_post") with
    | Some v => if truthy v then v else JObj result
    | None => JObj result
    end in
  match post_data with
  | JObj pd =>
      match dict_get pd (lit "angle_description") with
      | Some v => v
      | None => JNull
      end
  | _ => JStr []
  end.

(** Lines 296-302: the angle is appended to the list of the URL unless the
    list has it, and the history is saved when it was appended.  On a
    history that is not a mapping of lists the membership tests, the
    subscript or [append] raise. *)
Definition record_angle (w : write_env) (history : json) (u : str)
  (new_angle : json) (fs : file_state) : res (json * file_state) :=
  match history with
  | JObj h =>
      let h := if dict_has h u then h else dict_set h u (JArr []) in
      match dict_get h u with
      | Some (JArr angles) =>
          if list_in new_angle angles then Ok (JObj h, fs)
          else
            let h' := dict_set h u (JArr (angles ++ [new_angle])) in
            Ok (JObj h', fst (save_history w (JObj h') fs))
      | Some (JObj d) =>
          match new_angle with
          | JStr a => if dict_has d a then Ok (JObj h, fs)
                      else Raise AttributeError
          | JArr _ | JObj _ => Raise TypeError
          | _ => Raise AttributeError
          end
      | Some (JStr s) =>
          match new_angle with
          | JStr a => if str_in a s then Ok (JObj h, fs)
                      else Raise AttributeError
          | _ => Raise TypeError
          end
      | Some _ => Raise TypeError
      | None => Raise KeyError
      end
  | _ => Raise TypeError
  end.

(** Lines 289-302. *)
Definition save_angle (w : write_env) (history : json) (u : str)
  (result : dict) (fs : file_state) : res (json * file_state) :=
  if truthy (JObj result) && str_truthy u then
    let new_angle := new_angle_of result in
    if truthy new_angle then record_angle w history u new_angle fs
    else Ok (history, fs)
  else Ok (history, fs).

(** Everything a run depends on. *)
Record world := {
  gemini_api_key : option str;
  google_api_key : option str;
  arg_url : str;
  response : fetched;
  history_file : file_state;
  answer : reply;
  disk : write_env
}.

(** How a run ends: [sys.exit(1)], an exception nobody catches, or the end
    of [main] with the result it printed (as [json_dumps] writes it; how the
    terminal encodes the text is not part of the model), the history in
    memory and the history file.  The webhook call after that is wrapped in
    its own [try] and changes none of the three. *)
Inductive outcome :=
| Exit1
| Crashed (e : exn)
| Finished (result : dict) (history : json) (fs : file_state).

Definition main (w : world) : outcome :=
  match get_api_key (gemini_api_key w) (google_api_key w) with
  | None => Exit1
  | Some key =>
      if negb (str_truthy key) then Exit1
      else
        match scrape_article (arg_url w) (response w) with
        | None => Exit1
        | Some data =>
            match load_history (history_file w) with
            | Raise e => Crashed e
            | Ok history =>
                match generate_instagram_post data history (answer w) with
                | Raise e => Crashed e
                | Ok None => Exit1
                | Ok (Some result) =>
                    if truthy (JObj result) then
                      let result := backfill (arg_url w) data result in
                      match save_angle (disk w) history (arg_url w) result
                              (history_file w) with
                      | Raise e => Crashed e
                      | Ok (history', fs) => Finished result history' fs
                      end
                    else Exit1
                end
            end
        end
  end.

(** ** The [.env] fallback

    Lines 14-21 run when [dotenv] cannot be imported.  The loop works on the
    lines of [.env] as iterating over the file yields them, each with its
    line break.  The environment is a mapping from names to values.  Whether
    [os.environ] takes a name and a value is the platform's decision
    ([accepts]); when it does not, or when the unpacking of [k, v] fails,
    the exception ends the program, since nothing catches it.  So does an
    exception of [open] or of the reading of the file ([env_file]). *)

Definition environ := list (str * str).

(** [s.split(sep, 1)] for a one-character separator: the text before the
    first separator and the text after it, or [s] alone. *)
Fixpoint split_first (sep : char) (cur : str) (s : str) : list str :=
  match s with
  | [] => [rev cur]
  | c :: s' =>
      if char_eqb c sep then [rev cur; s']
      else split_first sep (c :: cur) s'
  end.

(** [s.lstrip(chars)] and [s.strip(chars)] *)
Fixpoint lstrip_chars (chars : str) (s : str) : str :=
  match s with
  | [] => []
  | c :: s' => if existsb (char_eqb c) chars then lstrip_chars chars s' else s
  end.

Definition strip_chars (chars : str) (s : str) : str :=
  rev (lstrip_chars chars (rev (lstrip_chars chars s))).

(** The two quote characters of line 21. *)
Definition quotes : str := [34; 39].

(** What one line does: nothing, the assignment [os.environ[k] = v], or a
    [ValueError] at the unpacking of line 20. *)
Inductive env_step :=
| NoAssignment
| Assign (k v : str)
| UnpackFails.

(** Lines 19-21. *)
Definition manual_env_line (line : str) : env_step :=
  if str_in (lit "=") line && negb (startswith (lit "#") line) then
    match split_first 61 [] (strip line) with
    | [k; v] => Assign k (strip_chars quotes v)
    | _ => UnpackFails
    end
  else NoAssignment.

(** Lines 18-21 on the lines that were read: the environment after them,
    [None] when an assignment raised. *)
Fixpoint manual_env_loader (accepts : str -> str -> bool) (env : environ)
  (lines : list str) : option environ :=
  match lines with
  | [] => Some env
  | line :: rest =>
      match manual_env_line line with
      | NoAssignment => manual_env_loader accepts env rest
      | Assign k v =>
          if accepts k v then manual_env_loader accepts (dict_set env k v) rest
          else None
      | UnpackFails => None
      end
  end.

(** What the program finds under [.env]: no file; a file that [open]
    refuses to open; or a file that gave [lines], all of its lines
    ([complete]) or those before the point where reading raised (bytes that
    cannot be decoded, an error of the system). *)
Inductive env_file :=
| NoEnvFile
| EnvUnopenable
| EnvLines (lines : list str) (complete : bool).

(** Lines 15-21: the environment after the block, [None] when an exception
    ended it. *)
Definition manual_env_fallback (accepts : str -> str -> bool)
  (env : environ) (f : env_file) : option environ :=
  match f with
  | NoEnvFile => Some env
  | EnvUnopenable => None
  | EnvLines lines complete =>
      match manual_env_loader accepts env lines with
      | Some env' => if complete then Some env' else None
      | None => None
      end
  end.

(** [os.getenv] on such an environment, and the key [get_api_key] finds
    there. *)
Definition getenv (env : environ) (name : str) : option str :=
  dict_get env name.

Definition api_key_of (env : environ) : option str :=
  get_api_key (getenv env (lit "GEMINI_API_KEY"))
    (getenv env (lit "GOOGLE_API_KEY")).

(** ** The claims as the specification words them

    [spec_title] is the title order of the specification: the first
    non-empty of the [og:title] content, the text of the first [h1], the
    text of [<title>], and the fallback. *)

Definition first_nonempty (candidates : list (option str)) (fallback : str)
  : str :=
  match filter str_truthy
          (List.concat
             (List.map (fun o => match o with Some s => [s] | None => [] end)
                candidates)) with
  | s :: _ => s
  | [] => fallback
  end.

Definition spec_title (doc : soup) : str :=
  first_nonempty
    [ match find_meta (lit "property") (lit "og:title") doc with
      | Some og => attr_get og (lit "content")
      | None => None
      end;
      option_map get_text_strip (find (lit "h1") doc);
      match find (lit "title") doc with
      | Some t => node_string t
      | None => None
      end ]
    (lit "Untitled Article").

(** The body content as the specification words it: the measure of a
    paragraph is its trimmed text, [get_text()] with the white space at the
    two ends taken off. *)
Definition get_text (n : node) : str :=
  List.concat
    (List.map
       (fun d => match d with
                 | NavigableString true s => s
                 | _ => []
                 end)
       (descendants n)).

Definition trimmed_text (n : node) : str := strip (get_text n).

Definition spec_content (doc : soup) : str :=
  firstn (N.to_nat 15000)
    (join [10; 10]
       (filter (fun t => (40 <? length t)%nat)
          (List.map trimmed_text (find_all [lit "p"] doc)))).

(** A page whose only paragraph has 41 characters of text in three pieces. *)
Definition pieces_doc : soup :=
  [Tag (lit "body") []
     [Tag (lit "p") []
        [NavigableString true (lit "The quick brown fox ");
         Tag (lit "b") [] [NavigableString true (lit "jumps")];
         NavigableString true (lit " over the lazy d")]]].

(** A page with a short paragraph and 400 paragraphs of 50 characters. *)
Definition line50 : str := repeat 97 50.

Definition long_doc : soup :=
  [Tag (lit "body") []
     (Tag (lit "p") [] [NavigableString true (lit "Short text.")]
      :: repeat
           (Tag (lit "p") []
              [NavigableString true (lit " ");
               Tag (lit "b") [] [NavigableString true line50]])
           400)].

(** The scenario: the answer of the model, written here with ['] where the
    JSON text has the double quote, and the article URL. *)
Definition json_lit (s : string) : str :=
  List.map (fun c => if c =? 39 then 34 else c) (lit s).

Definition scenario_answer : str :=
  json_lit "{'instagram_post': {'caption_text': 'Hello https://site.com/a world', 'angle_description': 'health angle'}}".

Definition scenario_url : str := lit "https://site.com/a".

(** A sample page, the article it gives, a history and a run. *)
Definition sample_doc : soup :=
  [Tag (lit "html") []
     [Tag (lit "head") []
        [Tag (lit "title") [] [NavigableString true (lit "Morning news | Site")];
         Tag (lit "meta")
           [(lit "property", lit "og:title"); (lit "content", lit "Morning news")]
           [];
         Tag (lit "meta")
           [(lit "property", lit "og:image");
            (lit "content", lit "http://cdn.example.com/x.jpg")]
           [];
         Tag (lit "meta")
           [(lit "name", lit "keywords"); (lit "content", lit "news, morning")]
           []];
      Tag (lit "body") []
        [Tag (lit "h1") [] [NavigableString true (lit " The morning ")];
         Tag (lit "h2") [] [NavigableString true (lit "Weather")];
         Tag (lit "p") [] [NavigableString true (lit "Short text.")];
         Tag (lit "p") []
           [NavigableString true (lit "This paragraph is long ");
            Tag (lit "b") [] [NavigableString true (lit "enough")];
            NavigableString true
              (lit " to pass the filter of forty.")]]]].

Definition sample_article : article :=
  {| url := scenario_url;
     title := Some (lit "Morning news");
     structure := [lit "Weather"];
     content := lit "This paragraph is longenoughto pass the filter of forty.";
     image_url := Some (lit "https://cdn.example.com/x.jpg");
     source_tags := [lit "news"; lit "morning"] |}.

Definition sample_history : dict :=
  [(scenario_url, JArr [JStr (lit "older angle")])].

Definition sample_disk : write_env :=
  {| open_ok := true; write_ok := true; written := 0; torn := false |}.

Definition sample_world : world :=
  {| gemini_api_key := Some (lit "secret");
     google_api_key := None;
     arg_url := scenario_url;
     response := Page sample_doc;
     history_file :=
       Text (json_lit "{'https://site.com/a': ['older angle']}");
     answer := ReplyText scenario_answer;
     disk := sample_disk |}.

(** An answer of the shape the prompt asks for, as [json.dumps] with
    [indent=2] writes it. *)
Definition schema_answer (caption angle : str) : str :=
  json_dumps
    (JObj [(lit "instagram_post",
            JObj [(lit "caption_text", JStr caption);
                  (lit "angle_description", JStr angle)])]).

(** A run whose history file holds a JSON list, and a run on the history
    file that [save_history] wrote for [sample_history]. *)
Definition list_history_world : world :=
  {| gemini_api_key := Some (lit "secret");
     google_api_key := None;
     arg_url := scenario_url;
     response := Page sample_doc;
     history_file := Text (json_dumps (JArr [JStr (lit "older angle")]));
     answer := ReplyText (schema_answer (lit "Hello") (lit "health angle"));
     disk := sample_disk |}.







(** [sub] occurs in [s]. *)
Definition occurs (sub s : str) : Prop :=
  exists before after, s = before ++ sub ++ after.

(** A history as the specification describes it: every URL is mapped to a
    list of strings; and its invariant: no list holds a string twice. *)
Definition angle_list (v : json) (angles : list str) : Prop :=
  v = JArr (List.map JStr angles).

Definition well_formed (h : dict) : Prop :=
  forall k v, dict_get h k = Some v -> exists angles, angle_list v angles.

Definition no_repeats (h : dict) : Prop :=
  forall k angles, dict_get h k = Some (JArr (List.map JStr angles)) ->
                   NoDup angles.

Definition str_eq_dec (a b : str) : {a = b} + {a <> b} :=
  list_eq_dec N.eq_dec a b.

(** The angles a history holds for a URL; none when the URL is not in
    it. *)
Definition recorded (h : dict) (u : str) (angles : list str) : Prop :=
  dict_get h u = Some (JArr (List.map JStr angles)) \/
  (dict_get h u = None /\ angles = []).

(** A [dict] holds each key once. *)
Definition unique_keys {V} (d : list (str * V)) : Prop :=
  NoDup (List.map fst d).

(** ** Notions used in the statements and proofs *)

Definition english_marker (u : str) : Prop :=
  occurs (lit "en-gb") u \/ occurs (lit "/en/") u \/ occurs (lit "-en-") u.

(** The value the back-fill takes from the article for each field. *)
Definition extracted (data : article) (k : str) : json :=
  if str_eqb k (lit "article_url") then JStr (url data)
  else if str_eqb k (lit "image_url") then json_of_opt (image_url data)
  else json_of_opt (title data).

Definition identity_fields : list str :=
  [lit "article_url"; lit "image_url"; lit "title"].

Definition og_title (doc : soup) : option node :=
  find_meta (lit "property") (lit "og:title") doc.

Definition title_string (doc : soup) : option str :=
  match find (lit "title") doc with
  | Some t => node_string t
  | None => None
  end.

Definition escaped (s : str) : str := List.concat (List.map escape_char s).

Definition encode_items (level : nat) (l : list json) : str :=
  List.concat
    (List.map (fun y => lit "," ++ newline_indent level ++ encode level y) l).

Definition encode_member (level : nat) (kv : str * json) : str :=
  encode_basestring (fst kv) ++ lit ": " ++ encode level (snd kv).

Definition encode_members (level : nat) (d : list (str * json)) : str :=
  List.concat
    (List.map (fun kv => lit "," ++ newline_indent level
                           ++ encode_member level kv) d).

(** A history given by its entries: the URLs with their angles. *)
Definition history_json (entries : list (str * list str)) : dict :=
  List.map (fun e => (fst e, JArr (List.map JStr (snd e)))) entries.

(** Fuel that is enough to read the entries back. *)
Fixpoint weight (entries : list (str * list str)) : nat :=
  match entries with
  | [] => 0
  | e :: rest => length (snd e) + 3 + weight rest
  end.



(** The first character of [s] satisfies [p]. *)
Definition head_is (p : char -> bool) (s : str) : bool :=
  match s with
  | c :: _ => p c
  | [] => false
  end.

Definition is_quote (c : char) : bool := existsb (char_eqb c) quotes.

(** A [.env] file with a comment, a quoted key and another variable, and an
    environment that already has a key. *)
Definition sample_env_lines : list str :=
  [lit "# keys" ++ [10];
   lit "GEMINI_API_KEY=" ++ [34] ++ lit "fresh" ++ [34; 10];
   lit "OTHER = 1" ++ [10]].

Definition sample_environ : environ :=
  [(lit "GEMINI_API_KEY", lit "stale"); (lit "HOME", lit "/root")].

(** * Properties *)

(** ** Strings *)

Lemma char_eqb_eq (a b : char) : char_eqb a b = true <-> a = b.
Proof. apply N.eqb_eq. Qed.

Lemma str_eqb_eq (a b : str) : str_eqb a b = true <-> a = b.
Proof.
  revert b; induction a as [|x a IH]; intros [|y b]; simpl;
    try (split; [discriminate | discriminate]); try tauto.
  rewrite andb_true_iff, char_eqb_eq, IH.
  split; [intros [-> ->]; reflexivity | intros H; inversion H; auto].
Qed.

Lemma str_eqb_refl (a : str) : str_eqb a a = true.
Proof. apply str_eqb_eq; reflexivity. Qed.

Lemma str_eqb_neq (a b : str) : str_eqb a b = false <-> a <> b.
Proof.
  rewrite <- str_eqb_eq. destruct (str_eqb a b); split; congruence.
Qed.

Lemma str_eqb_sym (a b : str) : str_eqb a b = str_eqb b a.
Proof.
  destruct (str_eqb a b) eqn:E.
  - apply str_eqb_eq in E; subst; symmetry; apply str_eqb_refl.
  - apply str_eqb_neq in E. symmetry. apply str_eqb_neq. congruence.
Qed.

Lemma startswith_spec (p s : str) :
  startswith p s = true <-> exists r, s = p ++ r.
Proof.
  revert s; induction p as [|x p IH]; intros s; simpl.
  - split; [intros _; exists s; reflexivity | reflexivity].
  - destruct s as [|y s].
    + split; [discriminate | intros [r H]; discriminate].
    + rewrite andb_true_iff, char_eqb_eq, IH. split.
      * intros [-> [r ->]]. exists r. reflexivity.
      * intros [r H]. inversion H; subst. split; [reflexivity | eauto].
Qed.

Lemma str_in_spec (sub s : str) : str_in sub s = true <-> occurs sub s.
Proof.
  unfold occurs. induction s as [|c s IH].
  - simpl. rewrite orb_false_r, startswith_spec. split.
    + intros [r H]. exists [], r. exact H.
    + intros [b [a H]]. destruct b; [exists a; exact H | discriminate].
  - cbn [str_in]. rewrite orb_true_iff, startswith_spec, IH. split.
    + intros [[r H] | [b [a H]]].
      * exists [], r. exact H.
      * exists (c :: b), a. rewrite H. reflexivity.
    + intros [[|c' b] [a H]].
      * left. exists a. exact H.
      * right. inversion H; subst. exists b, a. reflexivity.
Qed.

(** ** Dictionaries *)

Section DictFacts.
Variable V : Type.
Implicit Types (d : list (str * V)) (k : str) (v : V).

Lemma dict_get_set_same d k v : dict_get (dict_set d k v) k = Some v.
Proof.
  induction d as [|[k' v'] d IH]; simpl.
  - rewrite str_eqb_refl. reflexivity.
  - destruct (str_eqb k' k) eqn:E; simpl; rewrite E; auto.
Qed.

Lemma dict_get_set_other d k k' v :
  k <> k' -> dict_get (dict_set d k v) k' = dict_get d k'.
Proof.
  intros N. induction d as [|[k0 v0] d IH]; simpl.
  - destruct (str_eqb k k') eqn:E; [apply str_eqb_eq in E; congruence | auto].
  - destruct (str_eqb k0 k) eqn:E; simpl.
    + apply str_eqb_eq in E; subst k0.
      destruct (str_eqb k k') eqn:E'; [apply str_eqb_eq in E'; congruence|].
      reflexivity.
    + rewrite IH. reflexivity.
Qed.

Lemma dict_has_set d k k' v :
  dict_has (dict_set d k v) k' = str_eqb k k' || dict_has d k'.
Proof.
  unfold dict_has. destruct (str_eqb k k') eqn:E.
  - apply str_eqb_eq in E; subst. rewrite dict_get_set_same. reflexivity.
  - apply str_eqb_neq in E. rewrite dict_get_set_other by assumption.
    reflexivity.
Qed.

Lemma dict_get_in d k v : dict_get d k = Some v -> In (k, v) d.
Proof.
  induction d as [|[k' v'] d IH]; simpl; [discriminate|].
  destruct (str_eqb k' k) eqn:E.
  - apply str_eqb_eq in E. intros H; inversion H; subst; auto.
  - auto.
Qed.

Lemma dict_get_none d k : dict_get d k = None <-> ~ In k (List.map fst d).
Proof.
  induction d as [|[k' v'] d IH]; simpl; [tauto|].
  destruct (str_eqb k' k) eqn:E.
  - apply str_eqb_eq in E. split; [discriminate | intros H; tauto].
  - apply str_eqb_neq in E. rewrite IH. tauto.
Qed.

Lemma dict_set_keys_present d k v :
  dict_get d k <> None -> List.map fst (dict_set d k v) = List.map fst d.
Proof.
  induction d as [|[k' v'] d IH]; simpl; [congruence|].
  destruct (str_eqb k' k) eqn:E; simpl; [reflexivity|].
  intros H. rewrite IH by assumption. reflexivity.
Qed.

Lemma dict_set_keys_absent d k v :
  dict_get d k = None -> dict_set d k v = d ++ [(k, v)].
Proof.
  induction d as [|[k' v'] d IH]; simpl; [reflexivity|].
  destruct (str_eqb k' k) eqn:E; [discriminate|].
  intros H. rewrite IH by assumption. reflexivity.
Qed.

Lemma dict_set_unique d k v : unique_keys d -> unique_keys (dict_set d k v).
Proof.
  unfold unique_keys. intros U.
  destruct (dict_get d k) eqn:G.
  - rewrite dict_set_keys_present by congruence. exact U.
  - rewrite dict_set_keys_absent by assumption.
    rewrite map_app. simpl.
    apply dict_get_none in G.
    apply NoDup_app; [exact U | constructor; [tauto | constructor] |].
    intros x Hx [Hy | []]. subst. tauto.
Qed.
End DictFacts.

(** ** Language selection *)

(** C9.  The target language of an article URL is ["en"] exactly when the
    URL contains one of the markers ["en-gb"], ["/en/"] or ["-en-"], and it
    is ["sv"] for every other URL. *)
Theorem target_lang_markers (u : str) :
  (target_lang u = lit "en" <-> english_marker u) /\
  (target_lang u = lit "sv" <-> ~ english_marker u).
Proof.
  assert (D : lit "en" <> lit "sv") by (vm_compute; discriminate).
  unfold target_lang, english_marker.
  rewrite <- !str_in_spec.
  destruct (str_in (lit "en-gb") u), (str_in (lit "/en/") u),
    (str_in (lit "-en-") u); simpl;
    intuition (try discriminate; try congruence).
Qed.

(** ** Caption resolution *)

Lemma resolve_caption_other (data : dict) (k : str) :
  k <> lit "post_text" ->
  dict_get (resolve_caption data) k = dict_get data k.
Proof.
  intros N. unfold resolve_caption.
  destruct (dict_has data (lit "post_text")); [reflexivity|].
  destruct (dict_get data (lit "instagram_post")) as [[]|];
    try reflexivity;
    match goal with
    | |- context [dict_get ?m (lit "caption_text")] =>
        destruct (dict_get m (lit "caption_text")); [|reflexivity]
    end;
    apply dict_get_set_other; congruence.
Qed.

Lemma resolve_caption_without_post_text (data : dict) :
  dict_get (resolve_caption data) (lit "post_text") = None ->
  resolve_caption data = data.
Proof.
  unfold resolve_caption.
  destruct (dict_has data (lit "post_text")) eqn:E; [reflexivity|].
  destruct (dict_get data (lit "instagram_post")) as [[]|];
    try reflexivity;
    match goal with
    | |- context [dict_get ?m (lit "caption_text")] =>
        destruct (dict_get m (lit "caption_text")); [|reflexivity]
    end;
    rewrite dict_get_set_same; discriminate.
Qed.

(** C2, as the code has it.  Resolution is a total function of the parsed
    object.  A top-level ['post_text'] is kept and nothing changes.  Without
    it, the ['caption_text'] of an ['instagram_post'] object becomes
    ['post_text']; a top-level ['caption_text'] becomes ['post_text'] when
    the object has no ['instagram_post'] key at all.  No other field
    changes. *)
Theorem resolve_caption_cases (data : dict) :
  (dict_has data (lit "post_text") = true -> resolve_caption data = data) /\
  (forall nested caption,
      dict_has data (lit "post_text") = false ->
      dict_get data (lit "instagram_post") = Some (JObj nested) ->
      dict_get nested (lit "caption_text") = Some caption ->
      dict_get (resolve_caption data) (lit "post_text") = Some caption) /\
  (forall caption,
      dict_has data (lit "post_text") = false ->
      dict_get data (lit "instagram_post") = None ->
      dict_get data (lit "caption_text") = Some caption ->
      dict_get (resolve_caption data) (lit "post_text") = Some caption) /\
  (forall k, k <> lit "post_text" ->
             dict_get (resolve_caption data) k = dict_get data k).
Proof.
  split; [|split; [|split]].
  - unfold resolve_caption. intros ->. reflexivity.
  - unfold resolve_caption. intros nested caption -> -> ->.
    apply dict_get_set_same.
  - unfold resolve_caption. intros caption -> -> ->.
    apply dict_get_set_same.
  - intros k N. apply resolve_caption_other. exact N.
Qed.

(** C2, as the claim has it, fails: beside an ['instagram_post'] member
    that carries no caption, a top-level ['caption_text'] is not looked at,
    and the result has no ['post_text']. *)
Lemma caption_text_beside_instagram_post_ignored :
  let data := [(lit "instagram_post", JObj []);
               (lit "caption_text", JStr (lit "Hello"))] in
  dict_has data (lit "post_text") = false /\
  dict_get data (lit "caption_text") = Some (JStr (lit "Hello")) /\
  dict_get (resolve_caption data) (lit "post_text") = None.
Proof. vm_compute. auto. Qed.

(** ** Post-processing of the caption *)

(** C10, as the code has it.  For an answer that is an object: when
    ['post_text'] is a string after caption resolution, the result carries
    the cleaned caption and the target language and keeps every other
    field; when there is no ['post_text'] after resolution, the object comes
    back unchanged; when ['post_text'] is there and is not a string, the
    function gives [None].  An answer that is not an object gives [None]
    too. *)
Theorem normalize_cases (u : str) (d : dict) :
  (forall c,
      dict_get (resolve_caption d) (lit "post_text") = Some (JStr c) ->
      exists r,
        normalize u (JObj d) = Some r /\
        dict_get r (lit "post_text") = Some (JStr (clean_caption u c)) /\
        dict_get r (lit "language") = Some (JStr (target_lang u)) /\
        forall k, k <> lit "post_text" -> k <> lit "language" ->
                  dict_get r k = dict_get d k) /\
  (dict_get (resolve_caption d) (lit "post_text") = None ->
   normalize u (JObj d) = Some d) /\
  (forall v,
      dict_get (resolve_caption d) (lit "post_text") = Some v ->
      (forall c, v <> JStr c) ->
      normalize u (JObj d) = None) /\
  (forall data, (forall d', data <> JObj d') -> normalize u data = None).
Proof.
  repeat split.
  - intros c H. unfold normalize, post_process. rewrite H.
    eexists; split; [reflexivity|]. repeat split.
    + rewrite dict_get_set_other by (vm_compute; congruence).
      apply dict_get_set_same.
    + apply dict_get_set_same.
    + intros k N1 N2. rewrite !dict_get_set_other by congruence.
      apply resolve_caption_other. assumption.
  - intros H. unfold normalize, post_process. rewrite H. f_equal.
    apply resolve_caption_without_post_text. exact H.
  - intros v H N. unfold normalize, post_process. rewrite H.
    destruct v; try reflexivity. exfalso. eapply N. reflexivity.
  - intros data N. destruct data; try reflexivity. exfalso. eapply N.
    reflexivity.
Qed.

(** C10, as the claim has it, fails: this answer has a ['post_text'] field
    after resolution, and neither a language nor anything else is attached
    to it, the function gives [None]. *)
Lemma post_text_number_not_processed :
  let d := [(lit "post_text", JInt 5)] in
  dict_has (resolve_caption d) (lit "post_text") = true /\
  normalize (lit "https://site.com/a") (JObj d) = None.
Proof. vm_compute. auto. Qed.

(** ** Back-fill of the identity fields *)

Lemma scrape_article_url (u : str) (r : fetched) (data : article) :
  scrape_article u r = Some data -> url data = u.
Proof.
  unfold scrape_article. destruct r; [discriminate|].
  intros H. injection H as <-. reflexivity.
Qed.

Lemma lacks_set (result : dict) (k k' : str) (v : json) :
  k <> k' -> lacks (dict_set result k v) k' = lacks result k'.
Proof.
  intros N. unfold lacks. rewrite dict_get_set_other by assumption.
  reflexivity.
Qed.

Lemma truthy_not_empty_str (v : json) : truthy v = true -> py_eq v (JStr []) = false.
Proof.
  unfold py_eq. destruct v as [| | |f|[|c s]| |]; try (simpl; auto; discriminate).
  intros _. cbn [is_nan andb negb same_or_eq as_number].
  destruct f; reflexivity.
Qed.

Lemma image_url_test (result : dict) :
  lacks result (lit "image_url") ||
  match dict_get result (lit "image_url") with
  | Some v => py_eq v (JStr [])
  | None => false
  end = lacks result (lit "image_url").
Proof.
  unfold lacks. destruct (dict_get result (lit "image_url")) as [v|];
    [|reflexivity].
  destruct (truthy v) eqn:T; simpl; [|reflexivity].
  apply truthy_not_empty_str. assumption.
Qed.

Lemma lacks_missing_or_empty (result : dict) (k : str) :
  dict_get result k = None \/ dict_get result k = Some (JStr []) ->
  lacks result k = true.
Proof. intros [H | H]; unfold lacks; rewrite H; reflexivity. Qed.

Lemma extracted_article_url (data : article) :
  extracted data (lit "article_url") = JStr (url data).
Proof. reflexivity. Qed.

Lemma extracted_image_url (data : article) :
  extracted data (lit "image_url") = json_of_opt (image_url data).
Proof. reflexivity. Qed.

Lemma extracted_title (data : article) :
  extracted data (lit "title") = json_of_opt (title data).
Proof. reflexivity. Qed.

(** What the back-fill leaves in each of the three fields. *)
Lemma backfill_get (u : str) (data : article) (result : dict) (k : str) :
  url data = u -> In k identity_fields ->
  dict_get (backfill u data result) k
  = if lacks result k then Some (extracted data k) else dict_get result k.
Proof.
  intros S I.
  assert (N1 : lit "article_url" <> lit "image_url") by (vm_compute; congruence).
  assert (N2 : lit "article_url" <> lit "title") by (vm_compute; congruence).
  assert (N3 : lit "image_url" <> lit "title") by (vm_compute; congruence).
  unfold backfill. rewrite image_url_test.
  destruct I as [<- | [<- | [<- | []]]];
    rewrite ?extracted_article_url, ?extracted_image_url, ?extracted_title,
      ?S;
    destruct (lacks result (lit "article_url")) eqn:A;
    rewrite ?lacks_set by congruence;
    destruct (lacks result (lit "image_url")) eqn:B;
    rewrite ?lacks_set by congruence;
    destruct (lacks result (lit "title")) eqn:T;
    rewrite ?A, ?B, ?T;
    repeat (rewrite dict_get_set_same
            || rewrite dict_get_set_other by congruence);
    reflexivity.
Qed.

Lemma dict_set_same_value (V : Type) (d : list (str * V)) (k : str) (v : V) :
  dict_get d k = Some v -> dict_set d k v = d.
Proof.
  induction d as [|[k' v'] d IH]; simpl; [discriminate|].
  destruct (str_eqb k' k) eqn:E.
  - intros H; inversion H; reflexivity.
  - intros H. rewrite IH by assumption. reflexivity.
Qed.

(** A field the back-fill still finds lacking holds what the article
    gave. *)
Lemma backfill_lacking (u : str) (data : article) (result : dict) (k : str) :
  url data = u -> In k identity_fields ->
  lacks (backfill u data result) k = true ->
  dict_get (backfill u data result) k = Some (extracted data k).
Proof.
  intros S I L. pose proof (@backfill_get u data result k S I) as G.
  destruct (lacks result k) eqn:E; [exact G|].
  unfold lacks in L, E. rewrite G in L. rewrite L in E. discriminate.
Qed.

(** C6.  A result whose ['article_url'], ['image_url'] and ['title'] are
    all present and non-empty comes out of the back-fill unchanged; a field
    of the three that is missing or empty is filled from the extracted
    article, and a field that is present and non-empty keeps its value.
    Filling a second time changes nothing. *)
Theorem backfill_identity_fields (u : str) (r : fetched) (data : article)
  (result : dict) :
  scrape_article u r = Some data ->
  ((forall k, In k identity_fields -> lacks result k = false) ->
   backfill u data result = result) /\
  (forall k, In k identity_fields ->
             dict_get result k = None \/ dict_get result k = Some (JStr []) ->
             dict_get (backfill u data result) k = Some (extracted data k)) /\
  (forall k, In k identity_fields -> lacks result k = false ->
             dict_get (backfill u data result) k = dict_get result k) /\
  backfill u data (backfill u data result) = backfill u data result.
Proof.
  intros S. apply scrape_article_url in S.
  split; [|split; [|split]].
  - intros H. unfold backfill.
    rewrite (H (lit "article_url")) by (simpl; auto).
    rewrite image_url_test.
    rewrite (H (lit "image_url")) by (simpl; auto).
    rewrite (H (lit "title")) by (simpl; auto). reflexivity.
  - intros k I H. rewrite (@backfill_get u data result k S I).
    rewrite (lacks_missing_or_empty _ _ H). reflexivity.
  - intros k I H. rewrite (@backfill_get u data result k S I).
    rewrite H. reflexivity.
  - set (filled := backfill u data result).
    assert (F : forall k, In k identity_fields ->
                          (if lacks filled k
                           then dict_set filled k (extracted data k)
                           else filled) = filled).
    { intros k I. destruct (lacks filled k) eqn:L; [|reflexivity].
      apply dict_set_same_value. apply backfill_lacking; assumption. }
    unfold backfill at 1.
    replace (JStr u) with (extracted data (lit "article_url"))
      by (unfold extracted; rewrite S; reflexivity).
    rewrite (F (lit "article_url")) by (simpl; auto).
    rewrite image_url_test.
    change (json_of_opt (image_url data))
      with (extracted data (lit "image_url")).
    rewrite (F (lit "image_url")) by (simpl; auto).
    change (json_of_opt (title data)) with (extracted data (lit "title")).
    apply (F (lit "title")). simpl; auto.
Qed.

(** ** Recording an angle *)

Lemma list_in_strings (a : str) (l : list str) :
  list_in (JStr a) (List.map JStr l) = true <-> In a l.
Proof.
  unfold list_in. rewrite existsb_exists. split.
  - intros [x [I E]]. apply in_map_iff in I as [b [<- I]].
    simpl in E. apply str_eqb_eq in E. subst. exact I.
  - intros I. exists (JStr a). split; [apply in_map; exact I|].
    simpl. apply str_eqb_refl.
Qed.

Lemma map_JStr_inj (l m : list str) :
  List.map JStr l = List.map JStr m -> l = m.
Proof.
  revert m; induction l as [|x l IH]; intros [|y m] H; simpl in H;
    try discriminate; [reflexivity|].
  injection H as -> H. f_equal. auto.
Qed.

Lemma well_formed_set (h : dict) (u : str) (angles : list str) :
  well_formed h -> well_formed (dict_set h u (JArr (List.map JStr angles))).
Proof.
  intros W k v. destruct (str_eq_dec u k) as [<- | N].
  - rewrite dict_get_set_same. intros H; inversion H. exists angles.
    reflexivity.
  - rewrite dict_get_set_other by assumption. apply W.
Qed.

Lemma no_repeats_set (h : dict) (u : str) (angles : list str) :
  no_repeats h -> NoDup angles ->
  no_repeats (dict_set h u (JArr (List.map JStr angles))).
Proof.
  intros R D k l. destruct (str_eq_dec u k) as [<- | N].
  - rewrite dict_get_set_same. intros H. injection H as H.
    apply map_JStr_inj in H. subst. exact D.
  - rewrite dict_get_set_other by assumption. apply R.
Qed.

Lemma NoDup_snoc (a : str) (l : list str) :
  NoDup l -> ~ In a l -> NoDup (l ++ [a]).
Proof.
  intros D N. apply NoDup_app; [exact D | constructor; [tauto|constructor] |].
  intros x I [<- | []]. tauto.
Qed.

Lemma count_once (a : str) (l : list str) :
  NoDup l -> In a l -> count_occ str_eq_dec l a = 1%nat.
Proof.
  intros D I.
  apply (proj1 (NoDup_count_occ str_eq_dec l)) with (x := a) in D.
  apply (proj1 (count_occ_In str_eq_dec l a)) in I. lia.
Qed.

(** The subscript [history[args.url]] finds the key: it was there or has
    just been set. *)
Lemma record_angle_no_key_error (w : write_env) (history : json) (u : str)
  (new_angle : json) (fs : file_state) :
  record_angle w history u new_angle fs <> Raise KeyError.
Proof.
  unfold record_angle. destruct history; try discriminate.
  set (h := if dict_has members u then members
            else dict_set members u (JArr [])).
  assert (G : dict_get h u <> None).
  { unfold h, dict_has. destruct (dict_get members u) eqn:E.
    - rewrite E. discriminate.
    - rewrite dict_get_set_same. discriminate. }
  destruct (dict_get h u) as [v|]; [|congruence].
  destruct v; try discriminate.
  - destruct new_angle; try discriminate. destruct (str_in s0 s); discriminate.
  - destruct (list_in new_angle items); discriminate.
  - destruct new_angle; try discriminate.
    destruct (dict_has members0 s); discriminate.
Qed.

(** One recording, on a history that is a mapping of string lists without
    repeats: it succeeds, the list of the URL then holds the angle, the
    other lists are untouched and the history still is such a mapping. *)
Lemma record_angle_once (w : write_env) (h : dict) (u a : str)
  (fs : file_state) :
  well_formed h -> no_repeats h ->
  exists h1 fs1 angles,
    record_angle w (JObj h) u (JStr a) fs = Ok (JObj h1, fs1) /\
    dict_get h1 u = Some (JArr (List.map JStr angles)) /\
    In a angles /\
    (forall k, k <> u -> dict_get h1 k = dict_get h k) /\
    well_formed h1 /\ no_repeats h1.
Proof.
  intros W R. unfold record_angle, dict_has.
  destruct (dict_get h u) as [v|] eqn:G.
  - rewrite G. destruct (W _ _ G) as [l E]. unfold angle_list in E. subst v.
    destruct (list_in (JStr a) (List.map JStr l)) eqn:I.
    + exists h, fs, l. apply list_in_strings in I. auto 10.
    + assert (N : ~ In a l).
      { intros K. apply list_in_strings in K. congruence. }
      exists (dict_set h u (JArr (List.map JStr l ++ [JStr a]))).
      eexists. exists (l ++ [a]).
      change [JStr a] with (List.map JStr [a]). rewrite <- map_app.
      split; [reflexivity|]. split; [apply dict_get_set_same|].
      split; [apply in_or_app; simpl; auto|].
      split; [intros k K; apply dict_get_set_other; congruence|].
      split; [apply well_formed_set; assumption|].
      apply no_repeats_set; [assumption|].
      apply NoDup_snoc; [eapply R; eassumption | assumption].
  - rewrite dict_get_set_same. simpl.
    exists (dict_set (dict_set h u (JArr [])) u (JArr [JStr a])).
    eexists. exists [a].
    split; [reflexivity|]. split; [apply dict_get_set_same|].
    split; [simpl; auto|].
    split; [intros k K; rewrite !dict_get_set_other by congruence;
            reflexivity|].
    split.
    + apply (well_formed_set u [a]). apply (well_formed_set u []). exact W.
    + apply (@no_repeats_set _ u [a]).
      * apply (@no_repeats_set _ u []); [exact R|constructor].
      * repeat constructor. simpl; tauto.
Qed.

(** C5.  On a history that satisfies the invariant (every URL has a list of
    strings, no list holds a string twice), recording the same angle twice
    for a URL leaves the list of that URL with the angle exactly once: the
    first recording puts it there unless it is there already, the second
    changes nothing.  The history after it satisfies the invariant again
    and the lists of the other URLs are as before. *)
Theorem record_angle_twice (w1 w2 : write_env) (h : dict) (u a : str)
  (fs : file_state) :
  well_formed h -> no_repeats h ->
  exists h1 fs1 angles,
    record_angle w1 (JObj h) u (JStr a) fs = Ok (JObj h1, fs1) /\
    record_angle w2 (JObj h1) u (JStr a) fs1 = Ok (JObj h1, fs1) /\
    dict_get h1 u = Some (JArr (List.map JStr angles)) /\
    count_occ str_eq_dec angles a = 1%nat /\
    (forall k, k <> u -> dict_get h1 k = dict_get h k) /\
    well_formed h1 /\ no_repeats h1.
Proof.
  intros W R.
  destruct (record_angle_once w1 u a fs W R)
    as (h1 & fs1 & angles & E & G & I & O & W1 & R1).
  exists h1, fs1, angles. split; [exact E|].
  split.
  - unfold record_angle, dict_has. rewrite G, G.
    apply list_in_strings in I. rewrite I. reflexivity.
  - split; [exact G|]. split; [|auto].
    apply count_once; [eapply R1; eassumption | assumption].
Qed.

(** ** Body content *)

Lemma slice_to_firstn (n : N) (s : str) :
  slice_to n s = firstn (N.to_nat n) s.
Proof.
  revert n; induction s as [|c s IH]; intros n; simpl.
  - rewrite firstn_nil. reflexivity.
  - destruct (N.eqb_spec n 0) as [-> | E]; [reflexivity|].
    rewrite IH. replace (N.to_nat n) with (S (N.to_nat (N.pred n))) by lia.
    reflexivity.
Qed.

Lemma slice_to_length (n : N) (s : str) :
  N.of_nat (length (slice_to n s)) <= n.
Proof.
  rewrite slice_to_firstn.
  pose proof (firstn_le_length (N.to_nat n) s) as H1.
  rewrite length_firstn. lia.
Qed.

Lemma slice_to_all (n : N) (s : str) :
  N.of_nat (length s) <= n -> slice_to n s = s.
Proof.
  intros H. rewrite slice_to_firstn. apply firstn_all2. lia.
Qed.

Lemma slice_to_prefix (n : N) (s : str) :
  exists rest, s = slice_to n s ++ rest.
Proof.
  exists (skipn (N.to_nat n) s). rewrite slice_to_firstn.
  symmetry. apply firstn_skipn.
Qed.

(** C7.  The text of a [p] element is what [get_text(strip=True)] gives:
    its pieces of text, each one trimmed, put together.  The content is the
    first 15000 characters of the join, with a blank line between them and
    in document order, of the texts of exactly those [p] elements whose
    text is longer than 40 characters; it is the whole join when that fits,
    and it is never longer than 15000. *)
Theorem content_of_paragraphs (u : str) (doc : soup) (a : article) :
  scrape_article u (Page doc) = Some a ->
  let texts := List.map get_text_strip (find_all [lit "p"] doc) in
  let kept := filter (fun t => (40 <? length t)%nat) texts in
  content a = firstn (N.to_nat 15000) (join [10; 10] kept) /\
  (forall t, In t kept <-> In t texts /\ (40 < length t)%nat) /\
  (N.of_nat (length (join [10; 10] kept)) <= 15000 ->
   content a = join [10; 10] kept) /\
  N.of_nat (length (content a)) <= 15000.
Proof.
  unfold scrape_article. intros H. injection H as <-.
  unfold content, full_text, paragraphs.
  split; [|split; [|split]].
  - unfold content_cap. apply slice_to_firstn.
  - intros t. rewrite filter_In, Nat.ltb_lt. tauto.
  - intros L. apply slice_to_all. exact L.
  - apply slice_to_length.
Qed.

(** C7, as the claim has it, fails: the measure is not the trimmed text.
    A paragraph of 41 characters that come in three pieces has a text of 39
    characters for [get_text(strip=True)], which trims every piece, and is
    left out. *)
Lemma paragraph_of_41_characters_dropped :
  (List.map (fun p => length (trimmed_text p)) (find_all [lit "p"] pieces_doc)
   = [41%nat]) /\
  (List.map (fun p => length (get_text_strip p))
     (find_all [lit "p"] pieces_doc)
   = [39%nat]) /\
  (option_map content (scrape_article scenario_url (Page pieces_doc))
   = Some []) /\
  (spec_content pieces_doc
   = lit "The quick brown fox jumps over the lazy d").
Proof. vm_compute. auto. Qed.

(** ** Title *)

(** C1.  The code does not do what the claim says: on a page whose first
    [h1] holds only an image the title is the empty text of that heading,
    not the text of [<title>], which is the first non-empty value of the
    claimed order.  The code tests whether the heading is there, not
    whether it has text, while the branch next to it does replace an empty
    title by the fallback. *)
Lemma title_of_heading_without_text :
  let doc :=
    [Tag (lit "html") []
       [Tag (lit "head") []
          [Tag (lit "title") [] [NavigableString true (lit "Morning news")]];
        Tag (lit "body") []
          [Tag (lit "h1") []
             [Tag (lit "img") [(lit "src", lit "/logo.png")] []];
           Tag (lit "p") [] [NavigableString true (lit "Text")]]]] in
  option_map title (scrape_article (lit "https://site.com/a") (Page doc))
    = Some (Some []) /\
  spec_title doc = lit "Morning news".
Proof. vm_compute. auto. Qed.

(** ** The scenario of the specification *)

Lemma previous_angles_mapping (h : dict) (u : str) :
  exists r, previous_angles (JObj h) u = Ok r.
Proof.
  unfold previous_angles. destruct (truthy (JObj h)); [|eauto].
  destruct (dict_get h u); eauto.
Qed.

Lemma backfill_other (u : str) (data : article) (result : dict) (k : str) :
  ~ In k identity_fields ->
  dict_get (backfill u data result) k = dict_get result k.
Proof.
  intros N. unfold identity_fields in N. simpl in N.
  unfold backfill.
  repeat match goal with
         | |- context [if ?b then _ else _] => destruct b
         end;
    rewrite ?dict_get_set_other by tauto; reflexivity.
Qed.

Lemma truthy_mapping_has (d : dict) (k : str) (v : json) :
  dict_get d k = Some v -> truthy (JObj d) = true.
Proof. destruct d; [discriminate | reflexivity]. Qed.

(** C4, as the code has it.  For the answer of the scenario and the URL
    [https://site.com/a] the run ends with a ['post_text'] from which the
    URL is gone and whose ends are trimmed: ["Hello  world"], with the two
    spaces that stood around the URL; and the history of the URL has gained
    ["health angle"] at its end. *)
Theorem scenario_run (w : world) (doc : soup) (key : str) (h : dict)
  (angles : list str) :
  get_api_key (gemini_api_key w) (google_api_key w) = Some key ->
  str_truthy key = true ->
  arg_url w = scenario_url ->
  response w = Page doc ->
  load_history (history_file w) = Ok (JObj h) ->
  recorded h scenario_url angles ->
  ~ In (lit "health angle") angles ->
  answer w = ReplyText scenario_answer ->
  exists result h',
    main w = Finished result (JObj h')
               (fst (save_history (disk w) (JObj h') (history_file w))) /\
    dict_get result (lit "post_text") = Some (JStr (lit "Hello  world")) /\
    str_in scenario_url (lit "Hello  world") = false /\
    strip (lit "Hello  world") = lit "Hello  world" /\
    dict_get h' scenario_url
      = Some (JArr (List.map JStr (angles ++ [lit "health angle"]))).
Proof.
  intros K T U P L G N A.
  unfold main. rewrite K, T, U, P. cbn [negb scrape_article].
  rewrite L. unfold generate_instagram_post. cbn [url].
  destruct (previous_angles_mapping h scenario_url) as [r ->].
  cbn [bind]. rewrite A.
  assert (J : json_loads scenario_answer
              = Parsed (JObj [(lit "instagram_post",
                               JObj [(lit "caption_text",
                                      JStr (lit "Hello https://site.com/a world"));
                                     (lit "angle_description",
                                      JStr (lit "health angle"))])]) [])
    by (vm_compute; reflexivity).
  rewrite J.
  match goal with
  | |- context [normalize scenario_url ?d] =>
      assert (E : normalize scenario_url d
                  = Some [(lit "instagram_post",
                           JObj [(lit "caption_text",
                                  JStr (lit "Hello https://site.com/a world"));
                                 (lit "angle_description",
                                  JStr (lit "health angle"))]);
                          (lit "post_text", JStr (lit "Hello  world"));
                          (lit "language", JStr (lit "sv"))])
        by (vm_compute; reflexivity);
      rewrite E
  end.
  cbn [truthy].
  match goal with
  | |- context [backfill scenario_url ?d ?r] =>
      set (result := backfill scenario_url d r)
  end.
  assert (S : save_angle (disk w) (JObj h) scenario_url result
                (history_file w)
              = record_angle (disk w) (JObj h) scenario_url
                  (JStr (lit "health angle")) (history_file w)).
  { unfold save_angle.
    assert (I : dict_get result (lit "instagram_post")
                = Some (JObj [(lit "caption_text",
                               JStr (lit "Hello https://site.com/a world"));
                              (lit "angle_description",
                               JStr (lit "health angle"))])).
    { unfold result. rewrite backfill_other; [reflexivity|].
      vm_compute. intuition discriminate. }
    rewrite (truthy_mapping_has _ _ I).
    unfold new_angle_of. rewrite I. reflexivity. }
  rewrite S.
  assert (B : dict_get result (lit "post_text")
              = Some (JStr (lit "Hello  world"))).
  { unfold result. rewrite backfill_other; [reflexivity|].
    vm_compute. intuition discriminate. }
  assert (C : str_in scenario_url (lit "Hello  world") = false
              /\ strip (lit "Hello  world") = lit "Hello  world")
    by (vm_compute; auto).
  unfold record_angle, dict_has. destruct G as [G | [G ->]]; rewrite G.
  - rewrite G.
    assert (I : list_in (JStr (lit "health angle")) (List.map JStr angles)
                = false).
    { destruct (list_in _ _) eqn:E'; [|reflexivity].
      apply list_in_strings in E'. contradiction. }
    rewrite I.
    eexists _, _. split; [reflexivity|]. split; [exact B|].
    split; [apply C|]. split; [apply C|].
    rewrite dict_get_set_same, map_app. reflexivity.
  - rewrite dict_get_set_same. cbn [list_in existsb app].
    eexists _, _. split; [reflexivity|]. split; [exact B|].
    split; [apply C|]. split; [apply C|].
    rewrite dict_get_set_same. reflexivity.
Qed.

(** C4, as the claim has it, fails: the caption of the scenario does not
    come out as ["Hello world"]; trimming leaves the inside of the text
    alone. *)
Lemma scenario_post_text_is_not_hello_world :
  exists d r,
    json_loads scenario_answer = Parsed (JObj d) [] /\
    normalize scenario_url (JObj d) = Some r /\
    dict_get r (lit "post_text") = Some (JStr (lit "Hello  world")) /\
    dict_get r (lit "post_text") <> Some (JStr (lit "Hello world")).
Proof.
  eexists _, _. split; [vm_compute; reflexivity|].
  split; [vm_compute; reflexivity|].
  split; [vm_compute; reflexivity|].
  vm_compute. discriminate.
Qed.

(** ** The decoder consumes its input

    Whatever the decoder reads successfully is a non-empty prefix of its
    input; with that, the fuel [json_loads] starts from is never used up. *)


Lemma surrogate_pair_length (uni : N) (s : str) (ch : char) (s' : str) :
  surrogate_pair uni s = Some (ch, s') -> (length s' <= length s)%nat.
Proof.
  unfold surrogate_pair.
  destruct ((55296 <=? uni) && (uni <=? 56319) && startswith (lit "\u") s).
  - destruct s as [|a [|b [|g1 [|g2 [|g3 [|g4 t]]]]]]; simpl;
      try discriminate.
    destruct (decode_hex4 g1 g2 g3 g4); [|discriminate].
    destruct ((56320 <=? n) && (n <=? 57343)); intros H; inversion H; subst;
      simpl; lia.
  - intros H; inversion H; subst; lia.
Qed.

















(** ** Strings written by the encoder are read back *)

Lemma scanstring_from_fuel (n m : nat) (acc s : str) :
  (length s <= n)%nat -> (length s <= m)%nat ->
  scanstring_from n acc s = scanstring_from m acc s.
Proof.
  revert m acc s. induction n as [|n IH]; intros m acc s Hn Hm.
  - destruct s; [|simpl in Hn; lia]. destruct m; reflexivity.
  - destruct m as [|m]; [destruct s; [reflexivity | simpl in Hm; lia]|].
    simpl. destruct s as [|c s1]; [reflexivity|]. simpl in Hn, Hm.
    destruct (c =? 34); [reflexivity|].
    destruct (c <? 32); [reflexivity|].
    destruct (c =? 92).
    + destruct s1 as [|esc s2]; [reflexivity|]. simpl in Hn, Hm.
      destruct (esc =? 117).
      * destruct s2 as [|h1 [|h2 [|h3 [|h4 s3]]]]; try reflexivity.
        simpl in Hn, Hm.
        destruct (decode_hex4 h1 h2 h3 h4) as [uni|]; [|reflexivity].
        destruct (surrogate_pair uni s3) as [[ch s4]|] eqn:P; [|reflexivity].
        apply surrogate_pair_length in P. apply IH; lia.
      * destruct (unescape esc); [|reflexivity]. apply IH; lia.
    + apply IH; lia.
Qed.

Lemma hex_of_control (c : char) :
  c < 32 ->
  decode_hex4 48 48 (hex_digit (c / 16)) (hex_digit (c mod 16)) = Some c.
Proof.
  intros H. destruct c as [|p]; [reflexivity|].
  do 5 (try destruct p as [p|p|]); try (exfalso; lia); reflexivity.
Qed.

(** What [escape_char] writes for one character is read back as that
    character, in one step. *)
Lemma scanstring_from_escape (n : nat) (acc : str) (c : char) (rest : str) :
  scanstring_from (S n) acc (escape_char c ++ rest)
  = scanstring_from n (c :: acc) rest.
Proof.
  unfold escape_char.
  destruct (N.eqb_spec c 34) as [-> | N1]; [reflexivity|].
  destruct (N.eqb_spec c 92) as [-> | N2]; [reflexivity|].
  destruct (N.eqb_spec c 10) as [-> | N3]; [reflexivity|].
  destruct (N.eqb_spec c 13) as [-> | N4]; [reflexivity|].
  destruct (N.eqb_spec c 9) as [-> | N5]; [reflexivity|].
  destruct (N.eqb_spec c 8) as [-> | N6]; [reflexivity|].
  destruct (N.eqb_spec c 12) as [-> | N7]; [reflexivity|].
  destruct (N.ltb_spec c 32) as [L | L].
  - change (lit "\u00") with [92; 117; 48; 48] in *.
    cbn [app]. cbn [scanstring_from].
    change (92 =? 34) with false. change (92 <? 32) with false.
    change (92 =? 92) with true. change (117 =? 117) with true.
    cbv iota. rewrite (hex_of_control L).
    unfold surrogate_pair.
    replace (55296 <=? c) with false by (symmetry; apply N.leb_gt; lia).
    cbn [andb]. reflexivity.
  - cbn [app]. cbn [scanstring_from].
    replace (c =? 34) with false by (symmetry; apply N.eqb_neq; assumption).
    replace (c <? 32) with false by (symmetry; apply N.ltb_ge; assumption).
    replace (c =? 92) with false by (symmetry; apply N.eqb_neq; assumption).
    reflexivity.
Qed.

Lemma escaped_length (s : str) : (length s <= length (escaped s))%nat.
Proof.
  induction s as [|c s IH]; [simpl; lia|].
  unfold escaped in *. cbn [List.map List.concat]. rewrite length_app.
  assert (0 < length (escape_char c))%nat; [|simpl; lia].
  unfold escape_char.
  repeat match goal with
         | |- context [if ?b then _ else _] => destruct b
         end; simpl; lia.
Qed.

Lemma scanstring_from_escaped (s : str) :
  forall n acc rest,
    (length s < n)%nat ->
    scanstring_from n acc (escaped s ++ 34 :: rest) = Some (rev acc ++ s, rest).
Proof.
  induction s as [|c s IH]; intros n acc rest F.
  - destruct n; [simpl in F; lia|]. simpl. rewrite app_nil_r. reflexivity.
  - unfold escaped in *. cbn [List.map List.concat].
    rewrite <- app_assoc. destruct n as [|n]; [lia|].
    rewrite scanstring_from_escape. rewrite IH by (simpl in F; lia).
    cbn [rev]. rewrite <- app_assoc. reflexivity.
Qed.

Lemma scanstring_escaped (s rest : str) :
  scanstring (escaped s ++ 34 :: rest) = Some (s, rest).
Proof.
  unfold scanstring.
  rewrite scanstring_from_escaped; [reflexivity|].
  pose proof (escaped_length s). rewrite length_app. simpl. lia.
Qed.

Lemma encode_basestring_escaped (s : str) :
  encode_basestring s = 34 :: escaped s ++ [34].
Proof. reflexivity. Qed.

(** ** Lists of strings and histories are read back *)

Lemma encode_array (level : nat) (x : json) (l : list json) :
  encode level (JArr (x :: l))
  = 91 :: newline_indent (S level) ++ encode (S level) x
       ++ encode_items (S level) l ++ newline_indent level ++ [93].
Proof.
  cbn [encode]. change (lit "[") with [91]. change (lit "]") with [93].
  cbn [app]. do 3 f_equal.
  induction l as [|y l IH]; [reflexivity|].
  unfold encode_items. cbn [List.map List.concat].
  rewrite <- !app_assoc. do 3 f_equal. exact IH.
Qed.

Lemma encode_object (level : nat) (kv : str * json) (d : list (str * json)) :
  encode level (JObj (kv :: d))
  = 123 :: newline_indent (S level) ++ encode_member (S level) kv
        ++ encode_members (S level) d ++ newline_indent level ++ [125].
Proof.
  destruct kv as [k x]. cbn [encode]. unfold encode_member. cbn [fst snd].
  change (lit "{") with [123]. change (lit "}") with [125].
  cbn [app]. rewrite <- !app_assoc. do 5 f_equal.
  induction d as [|[k' y] d IH]; [reflexivity|].
  unfold encode_members, encode_member. cbn [List.map List.concat fst snd].
  rewrite <- !app_assoc. do 5 f_equal. exact IH.
Qed.

Lemma encode_items_cons (level : nat) (y : json) (l : list json) :
  encode_items level (y :: l)
  = 44 :: newline_indent level ++ encode level y ++ encode_items level l.
Proof.
  unfold encode_items. cbn [List.map List.concat].
  change (lit ",") with [44]. cbn [app]. rewrite <- app_assoc. reflexivity.
Qed.

Lemma encode_members_cons (level : nat) (kv : str * json)
  (d : list (str * json)) :
  encode_members level (kv :: d)
  = 44 :: newline_indent level ++ encode_member level kv
       ++ encode_members level d.
Proof.
  unfold encode_members. cbn [List.map List.concat].
  change (lit ",") with [44]. cbn [app]. rewrite <- app_assoc. reflexivity.
Qed.

Lemma skip_ws_spaces (k : nat) (rest : str) :
  skip_ws (repeat 32 k ++ rest) = skip_ws rest.
Proof. induction k as [|k IH]; [reflexivity | exact IH]. Qed.

Lemma skip_ws_indent (level : nat) (rest : str) :
  skip_ws (newline_indent level ++ rest) = skip_ws rest.
Proof. unfold newline_indent. simpl. apply skip_ws_spaces. Qed.

Lemma skip_ws_stop (c : char) (rest : str) :
  is_ws c = false -> skip_ws (c :: rest) = c :: rest.
Proof. intros H. simpl. rewrite H. reflexivity. Qed.

Lemma skip_ws_string (x rest : str) :
  skip_ws (encode_basestring x ++ rest) = encode_basestring x ++ rest.
Proof. reflexivity. Qed.

(** The steps of the decoder, one at a time. *)

Lemma scan_once_quote (n : nat) (s : str) :
  scan_once (S n) (34 :: s)
  = match scanstring s with
    | Some (v, rest) => Parsed (JStr v) rest
    | None => Malformed
    end.
Proof. reflexivity. Qed.

Lemma scan_once_bracket (n : nat) (s : str) (c : char) (r : str) :
  skip_ws s = c :: r -> c <> 93 ->
  scan_once (S n) (91 :: s) = array_loop n [] (c :: r).
Proof.
  intros W N. cbn [scan_once]. change (91 =? 34) with false.
  change (91 =? 123) with false. change (91 =? 91) with true. cbv iota.
  rewrite W. apply N.eqb_neq in N. rewrite N. reflexivity.
Qed.

Lemma scan_once_brace (n : nat) (s r : str) :
  skip_ws s = 34 :: r ->
  scan_once (S n) (123 :: s) = object_loop n [] r.
Proof.
  intros W. cbn [scan_once]. change (123 =? 34) with false.
  change (123 =? 123) with true. cbv iota. rewrite W. reflexivity.
Qed.

Lemma array_loop_close (n : nat) (acc : list json) (s r r' : str) (v : json) :
  scan_once n s = Parsed v r -> skip_ws r = 93 :: r' ->
  array_loop (S n) acc s = Parsed (JArr (rev (v :: acc))) r'.
Proof. intros E W. cbn [array_loop]. rewrite E, W. reflexivity. Qed.

Lemma array_loop_next (n : nat) (acc : list json) (s r r' : str) (v : json) :
  scan_once n s = Parsed v r -> skip_ws r = 44 :: r' ->
  array_loop (S n) acc s = array_loop n (v :: acc) (skip_ws r').
Proof. intros E W. cbn [array_loop]. rewrite E, W. reflexivity. Qed.

Lemma object_loop_close (n : nat) (acc : list (str * json))
  (s s1 s2 r r' key : str) (v : json) :
  scanstring s = Some (key, s1) -> skip_ws s1 = 58 :: s2 ->
  scan_once n (skip_ws s2) = Parsed v r -> skip_ws r = 125 :: r' ->
  object_loop (S n) acc s
  = Parsed (JObj (dict_of_pairs (rev ((key, v) :: acc)))) r'.
Proof.
  intros K W1 E W2. cbn [object_loop]. rewrite K, W1.
  change (58 =? 58) with true. cbv iota. rewrite E, W2. reflexivity.
Qed.

Lemma object_loop_next (n : nat) (acc : list (str * json))
  (s s1 s2 r r' s3 key : str) (v : json) :
  scanstring s = Some (key, s1) -> skip_ws s1 = 58 :: s2 ->
  scan_once n (skip_ws s2) = Parsed v r -> skip_ws r = 44 :: r' ->
  skip_ws r' = 34 :: s3 ->
  object_loop (S n) acc s = object_loop n ((key, v) :: acc) s3.
Proof.
  intros K W1 E W2 W3. cbn [object_loop]. rewrite K, W1.
  change (58 =? 58) with true. cbv iota. rewrite E, W2.
  change (44 =? 125) with false. change (44 =? 44) with true. cbv iota.
  rewrite W3. reflexivity.
Qed.

Lemma encode_basestring_app (x rest : str) :
  encode_basestring x ++ rest = 34 :: escaped x ++ 34 :: rest.
Proof.
  rewrite encode_basestring_escaped. cbn [app]. rewrite <- app_assoc.
  reflexivity.
Qed.

Lemma scan_once_string (n : nat) (x rest : str) :
  scan_once (S n) (encode_basestring x ++ rest) = Parsed (JStr x) rest.
Proof.
  rewrite encode_basestring_escaped. cbn [app]. rewrite scan_once_quote.
  rewrite <- app_assoc. cbn [app]. rewrite scanstring_escaped. reflexivity.
Qed.

(** The loop of [JSONArray] over the strings the encoder wrote, up to the
    closing bracket. *)
Lemma array_loop_strings (level k : nat) (rest : str) (l : list str) :
  forall n acc x,
    (length l + 1 < n)%nat ->
    array_loop n acc
      (encode_basestring x ++ encode_items level (List.map JStr l)
         ++ newline_indent k ++ 93 :: rest)
    = Parsed (JArr (rev acc ++ JStr x :: List.map JStr l)) rest.
Proof.
  induction l as [|y l IH]; intros n acc x F.
  - destruct n as [|[|n]]; try (simpl in F; lia).
    erewrite array_loop_close; [reflexivity | apply scan_once_string |].
    cbn [List.map encode_items List.concat app].
    rewrite skip_ws_indent. reflexivity.
  - destruct n as [|[|n]]; try (simpl in F; lia).
    cbn [List.map]. rewrite encode_items_cons.
    rewrite <- app_comm_cons, <- !app_assoc.
    erewrite array_loop_next;
      [| apply scan_once_string | apply skip_ws_stop; reflexivity].
    rewrite skip_ws_indent. cbn [encode]. rewrite skip_ws_string.
    rewrite IH by (simpl in F; lia).
    cbn [rev]. rewrite <- app_assoc. reflexivity.
Qed.

(** A list of strings, as the encoder writes it at any nesting level, is
    read back by [scan_once]. *)
Lemma scan_once_strings (level : nat) (l : list str) (rest : str) (n : nat) :
  (length l + 2 < n)%nat ->
  scan_once n (encode level (JArr (List.map JStr l)) ++ rest)
  = Parsed (JArr (List.map JStr l)) rest.
Proof.
  intros F. destruct n as [|n]; [lia|].
  destruct l as [|x l].
  - reflexivity.
  - cbn [List.map]. rewrite encode_array.
    rewrite <- app_comm_cons, <- !app_assoc. cbn [encode].
    erewrite scan_once_bracket;
      [| rewrite skip_ws_indent, encode_basestring_app;
         apply skip_ws_stop; reflexivity | discriminate].
    rewrite <- encode_basestring_app.
    change ([93] ++ rest) with (93 :: rest).
    rewrite array_loop_strings by (simpl in F; lia). reflexivity.
Qed.

Lemma encode_member_app (level : nat) (k : str) (v : json) (rest : str) :
  encode_member level (k, v) ++ rest
  = 34 :: escaped k ++ 34 :: 58 :: 32 :: encode level v ++ rest.
Proof.
  unfold encode_member. cbn [fst snd]. change (lit ": ") with [58; 32].
  rewrite <- !app_assoc. rewrite encode_basestring_app. reflexivity.
Qed.

Lemma skip_ws_array (level : nat) (l : list json) (rest : str) :
  skip_ws (encode level (JArr l) ++ rest) = encode level (JArr l) ++ rest.
Proof.
  destruct l as [|x l]; [reflexivity|]. rewrite encode_array. reflexivity.
Qed.

(** The loop of [JSONObject] over the entries the encoder wrote, from just
    after the opening quote of a key up to the closing brace. *)
Lemma object_loop_history (rest : str) (entries : list (str * list str)) :
  forall n acc k angles,
    (weight ((k, angles) :: entries) < n)%nat ->
    object_loop n acc
      (escaped k ++ 34 :: 58 :: 32 ::
         encode 1 (JArr (List.map JStr angles))
         ++ encode_members 1 (history_json entries)
         ++ newline_indent 0 ++ 125 :: rest)
    = Parsed
        (JObj (dict_of_pairs
                 (rev acc ++ history_json ((k, angles) :: entries))))
        rest.
Proof.
  induction entries as [|[k' angles'] entries IH]; intros n acc k angles F;
    cbn [weight snd] in F; (destruct n as [|n]; [lia|]).
  - erewrite object_loop_close;
      [ | apply scanstring_escaped
        | apply skip_ws_stop; reflexivity
        | cbn [skip_ws is_ws]; change (32 =? 32) with true; cbn [orb];
          cbv iota; rewrite skip_ws_array;
          apply scan_once_strings; lia
        | cbn [history_json List.map encode_members List.concat app];
          reflexivity ].
    cbn [rev history_json List.map fst snd]. reflexivity.
  - erewrite object_loop_next;
      [ | apply scanstring_escaped
        | apply skip_ws_stop; reflexivity
        | cbn [skip_ws is_ws]; change (32 =? 32) with true; cbn [orb];
          cbv iota; rewrite skip_ws_array;
          apply scan_once_strings; lia
        | cbn [history_json List.map fst snd];
          rewrite encode_members_cons, <- app_comm_cons;
          apply skip_ws_stop; reflexivity
        | rewrite <- !app_assoc, skip_ws_indent, encode_member_app;
          apply skip_ws_stop; reflexivity ].
    fold (history_json entries).
    rewrite IH by (cbn [weight snd]; lia).
    cbn [rev history_json List.map fst snd]. rewrite <- app_assoc.
    reflexivity.
Qed.

Lemma dict_of_pairs_unique (V : Type) (d : list (str * V)) :
  unique_keys d -> dict_of_pairs d = d.
Proof.
  unfold dict_of_pairs.
  enough (G : forall acc,
             unique_keys (acc ++ d) ->
             fold_left (fun d0 kv => dict_set d0 (fst kv) (snd kv)) d acc
             = acc ++ d) by (intros U; apply (G [] U)).
  induction d as [|[k v] d IH]; intros acc U; cbn [fold_left fst snd].
  - rewrite app_nil_r. reflexivity.
  - rewrite dict_set_keys_absent.
    + rewrite IH; rewrite <- app_assoc; [reflexivity | exact U].
    + apply dict_get_none. unfold unique_keys in U.
      rewrite map_app in U. cbn [List.map fst] in U.
      apply NoDup_remove_2 in U. intros I. apply U.
      apply in_or_app. left. exact I.
Qed.

Lemma encode_basestring_length (x : str) :
  (2 <= length (encode_basestring x))%nat.
Proof.
  rewrite encode_basestring_escaped. cbn [length]. rewrite length_app.
  cbn [length]. lia.
Qed.

Lemma encode_items_length (level : nat) (l : list str) :
  (length l <= length (encode_items level (List.map JStr l)))%nat.
Proof.
  induction l as [|x l IH]; [simpl; lia|].
  cbn [List.map]. rewrite encode_items_cons. cbn [length].
  rewrite !length_app. lia.
Qed.

Lemma encode_strings_length (level : nat) (l : list str) :
  (length l + 2 <= length (encode level (JArr (List.map JStr l))))%nat.
Proof.
  destruct l as [|x l]; [simpl; lia|].
  cbn [List.map]. rewrite encode_array. cbn [length].
  rewrite !length_app. pose proof (encode_items_length (S level) l).
  pose proof (encode_basestring_length x). cbn [encode length]. lia.
Qed.

Lemma encode_members_length (level : nat) (entries : list (str * list str)) :
  (weight entries
   <= length (encode_members level (history_json entries)))%nat.
Proof.
  induction entries as [|[k angles] entries IH]; [simpl; lia|].
  cbn [history_json List.map fst snd weight].
  rewrite encode_members_cons. fold (history_json entries).
  cbn [length]. rewrite !length_app. unfold encode_member.
  cbn [fst snd]. rewrite !length_app.
  pose proof (encode_strings_length level angles). lia.
Qed.

(** A history is read back from the text the encoder writes for it. *)
Lemma json_loads_dumps_history (entries : list (str * list str)) :
  unique_keys entries ->
  json_loads (json_dumps (JObj (history_json entries)))
  = Parsed (JObj (history_json entries)) [].
Proof.
  intros U. unfold json_loads, json_dumps.
  destruct entries as [|[k angles] entries]; [reflexivity|].
  cbn [history_json List.map fst snd]. fold (history_json entries).
  rewrite encode_object.
  set (text := encode_member 1 (k, JArr (List.map JStr angles))
                 ++ encode_members 1 (history_json entries)
                 ++ newline_indent 0 ++ [125]).
  rewrite skip_ws_stop by reflexivity.
  match goal with
  | |- context [scan_once ?f _] =>
      replace f with (S (Nat.pred f)) by lia
  end.
  erewrite scan_once_brace;
    [| rewrite skip_ws_indent; unfold text; rewrite encode_member_app;
       apply skip_ws_stop; reflexivity].
  rewrite (object_loop_history [] entries).
  - cbn [rev app skip_ws]. f_equal. f_equal.
    apply (@dict_of_pairs_unique json
             (history_json ((k, angles) :: entries))).
    unfold unique_keys, history_json in *. rewrite map_map. exact U.
  - cbn [weight snd length]. rewrite length_app. unfold text.
    rewrite !length_app. unfold encode_member. cbn [fst snd].
    rewrite !length_app.
    pose proof (encode_strings_length 1 angles).
    pose proof (encode_members_length 1 entries). lia.
Qed.

(** ** Loading and saving the history *)

Lemma well_formed_entries (h : dict) :
  well_formed h -> unique_keys h ->
  exists entries, h = history_json entries /\ unique_keys entries.
Proof.
  induction h as [|[k v] h IH]; intros W U.
  - exists []. split; [reflexivity | constructor].
  - unfold unique_keys in U. cbn [List.map fst] in U.
    inversion U as [|? ? Hk Hh]; subst.
    destruct IH as (entries & -> & U').
    + intros k' v' G. apply (W k' v'). simpl.
      destruct (str_eqb k k') eqn:E; [|exact G].
      apply str_eqb_eq in E. subst k'.
      apply dict_get_in in G. exfalso. apply Hk.
      apply (in_map fst) in G. exact G.
    + exact Hh.
    + destruct (W k v) as [angles A].
      { simpl. rewrite str_eqb_refl. reflexivity. }
      unfold angle_list in A. subst v.
      exists ((k, angles) :: entries). split; [reflexivity|].
      unfold unique_keys, history_json in *. cbn [List.map fst].
      rewrite map_map in Hk, Hh. cbn [fst] in Hk, Hh.
      constructor; assumption.
Qed.



(** C3.  The claim fails on the code: [load_history] catches the error of
    the JSON decoder and no other.  On a history file whose bytes are not
    UTF-8 the read raises [UnicodeDecodeError], on a file that cannot be
    opened [open] raises [OSError], and both leave [load_history]. *)
Theorem load_history_raises_on_unreadable_file :
  load_history Undecodable = Raise UnicodeDecodeError /\
  load_history Unopenable = Raise OSError.
Proof. split; reflexivity. Qed.

(** ** The theorems at a sample run *)

Lemma history_json_get (entries : list (str * list str)) (k : str) (v : json) :
  dict_get (history_json entries) k = Some v ->
  exists angles, In (k, angles) entries /\ v = JArr (List.map JStr angles).
Proof.
  induction entries as [|[k' angles'] entries IH]; simpl; [discriminate|].
  destruct (str_eqb k' k) eqn:E.
  - apply str_eqb_eq in E. subst. intros H; inversion H. eauto.
  - intros H. destruct (IH H) as (angles & I & ->). eauto.
Qed.

Lemma history_json_well_formed (entries : list (str * list str)) :
  well_formed (history_json entries).
Proof.
  intros k v G. destruct (history_json_get _ _ G) as (angles & _ & ->).
  exists angles. reflexivity.
Qed.

Lemma history_json_no_repeats (entries : list (str * list str)) :
  Forall (fun e => NoDup (snd e)) entries ->
  no_repeats (history_json entries).
Proof.
  intros F k angles G.
  destruct (history_json_get _ _ G) as (angles' & I & E).
  injection E as E. apply map_JStr_inj in E. subst angles'.
  rewrite Forall_forall in F. apply (F _ I).
Qed.

Lemma content_of_paragraphs_witness :
  exists a,
    scrape_article scenario_url (Page long_doc) = Some a /\
    content a
    = List.concat (repeat (line50 ++ [10; 10]) 288) ++ repeat 97 24 /\
    N.of_nat (length (content a)) = 15000.
Proof.
  eexists. split; [reflexivity|].
  destruct (@content_of_paragraphs scenario_url long_doc _ eq_refl)
    as (E & _ & _ & _).
  rewrite E. split; vm_compute; reflexivity.
Defined.

Lemma backfill_identity_fields_witness :
  scrape_article scenario_url (Page sample_doc) = Some sample_article /\
  dict_get (backfill scenario_url sample_article
              [(lit "post_text", JStr (lit "Hi"));
               (lit "title", JStr (lit "A title of the model"))])
    (lit "title")
  = Some (JStr (lit "A title of the model")) /\
  dict_get (backfill scenario_url sample_article
              [(lit "post_text", JStr (lit "Hi"));
               (lit "title", JStr (lit "A title of the model"))])
    (lit "image_url")
  = Some (JStr (lit "https://cdn.example.com/x.jpg")).
Proof.
  assert (S : scrape_article scenario_url (Page sample_doc)
              = Some sample_article) by (vm_compute; reflexivity).
  split; [exact S|].
  destruct (@backfill_identity_fields _ _ _
              [(lit "post_text", JStr (lit "Hi"));
               (lit "title", JStr (lit "A title of the model"))] S)
    as (_ & Fill & Keep & _).
  split.
  - rewrite (Keep (lit "title")); [reflexivity | simpl; auto | reflexivity].
  - rewrite (Fill (lit "image_url")); [reflexivity | simpl; auto |].
    left. reflexivity.
Defined.

Lemma record_angle_twice_witness :
  exists h1 fs1,
    record_angle sample_disk (JObj sample_history) scenario_url
      (JStr (lit "health angle")) Missing = Ok (JObj h1, fs1) /\
    record_angle sample_disk (JObj h1) scenario_url
      (JStr (lit "health angle")) fs1 = Ok (JObj h1, fs1) /\
    dict_get h1 scenario_url
    = Some (JArr [JStr (lit "older angle"); JStr (lit "health angle")]).
Proof.
  destruct (@record_angle_twice sample_disk sample_disk sample_history
              scenario_url (lit "health angle") Missing)
    as (h1 & fs1 & angles & E1 & E2 & G & _).
  - apply (history_json_well_formed [(scenario_url, [lit "older angle"])]).
  - apply (@history_json_no_repeats [(scenario_url, [lit "older angle"])]).
    repeat constructor. simpl. tauto.
  - exists h1, fs1. split; [exact E1|]. split; [exact E2|].
    vm_compute in E1. injection E1 as <- _. vm_compute. reflexivity.
Defined.



Lemma scenario_run_witness :
  load_history (history_file sample_world) = Ok (JObj sample_history) /\
  exists result h',
    main sample_world
    = Finished result (JObj h')
        (fst (save_history sample_disk (JObj h') (history_file sample_world)))
    /\ dict_get result (lit "post_text") = Some (JStr (lit "Hello  world"))
    /\ dict_get h' scenario_url
       = Some (JArr [JStr (lit "older angle"); JStr (lit "health angle")]).
Proof.
  assert (L : load_history (history_file sample_world)
              = Ok (JObj sample_history)) by (vm_compute; reflexivity).
  split; [exact L|].
  destruct (@scenario_run sample_world sample_doc (lit "secret")
              sample_history [lit "older angle"])
    as (result & h' & M & P & _ & _ & G);
    try reflexivity; try exact L.
  - left. reflexivity.
  - simpl. intros [E | []]. vm_compute in E. discriminate.
  - exists result, h'. split; [exact M|]. split; [exact P | exact G].
Defined.

(** * Further properties of the program *)

(** ** Trimming and replacing *)

Lemma lstrip_split (s : str) :
  exists ws, s = ws ++ lstrip s /\ Forall (fun c => isspace c = true) ws.
Proof.
  induction s as [|c s (ws & E & F)]; [exists []; split; [reflexivity|constructor]|].
  cbn [lstrip]. destruct (isspace c) eqn:W.
  - exists (c :: ws). split; [cbn [app]; congruence | constructor; assumption].
  - exists []. split; [reflexivity | constructor].
Qed.

Lemma lstrip_head (s : str) (c : char) (r : str) :
  lstrip s = c :: r -> isspace c = false.
Proof.
  induction s as [|x s IH]; cbn [lstrip]; [discriminate|].
  destruct (isspace x) eqn:W; [exact IH|].
  intros H. injection H as <- _. exact W.
Qed.

Lemma lstrip_length (s : str) : (length (lstrip s) <= length s)%nat.
Proof.
  destruct (lstrip_split s) as (ws & E & _). rewrite E at 2.
  rewrite length_app. lia.
Qed.

Lemma strip_length (s : str) : (length (strip s) <= length s)%nat.
Proof.
  unfold strip, rstrip. rewrite length_rev.
  pose proof (lstrip_length (rev (lstrip s))) as H. rewrite length_rev in H.
  pose proof (lstrip_length s). lia.
Qed.

(** What [strip] gives neither begins nor ends with white space. *)
Lemma strip_ends (s : str) (c : char) (r : str) :
  (strip s = c :: r -> isspace c = false) /\
  (strip s = r ++ [c] -> isspace c = false).
Proof.
  unfold strip, rstrip. split; intros H.
  - destruct (lstrip_split (rev (lstrip s))) as (ws & E & _).
    apply (f_equal (@rev char)) in E.
    rewrite rev_involutive, rev_app_distr, H in E. cbn [app] in E.
    apply lstrip_head in E. exact E.
  - apply (f_equal (@rev char)) in H.
    rewrite rev_involutive, rev_app_distr in H. cbn [rev app] in H.
    apply lstrip_head in H. exact H.
Qed.

Lemma lstrip_fixed (s : str) :
  (forall c r, s = c :: r -> isspace c = false) -> lstrip s = s.
Proof.
  destruct s as [|c s]; [reflexivity|]. intros H. cbn [lstrip].
  rewrite (H c s eq_refl). reflexivity.
Qed.

(** Trimming twice is trimming once. *)
Lemma strip_strip (s : str) : strip (strip s) = strip s.
Proof.
  set (t := strip s).
  assert (L : lstrip t = t).
  { apply lstrip_fixed. intros c r E. apply (proj1 (strip_ends s c r) E). }
  unfold strip at 1. rewrite L. unfold rstrip.
  rewrite lstrip_fixed; [apply rev_involutive|].
  intros c r E. apply (f_equal (@rev char)) in E.
  rewrite rev_involutive in E. cbn [rev] in E.
  apply (proj2 (strip_ends s c (rev r)) E).
Qed.

Lemma replace_scan_length (old : str) (s : str) :
  forall k, (length (replace_scan old [] k s) <= length s)%nat.
Proof.
  induction s as [|c s IH]; intros k; cbn [replace_scan length]; [lia|].
  destruct k as [|k].
  - destruct (startswith old (c :: s)); cbn [app length].
    + specialize (IH (length old - 1)%nat). lia.
    + specialize (IH 0%nat). lia.
  - specialize (IH k). lia.
Qed.

(** Removing a substring never makes a string longer. *)
Lemma remove_length (old s : str) :
  (length (replace old [] s) <= length s)%nat.
Proof.
  unfold replace. destruct old as [|o old].
  - cbn [app]. induction s as [|c s IH]; cbn [List.map List.concat app length];
      lia.
  - apply replace_scan_length.
Qed.

(** Replacing a substring that does not occur changes nothing. *)
Lemma replace_absent (old new s : str) :
  old <> [] -> str_in old s = false -> replace old new s = s.
Proof.
  intros N. unfold replace. destruct old as [|o old]; [congruence|].
  induction s as [|c s IH]; [reflexivity|].
  cbn [str_in replace_scan]. intros H. apply orb_false_iff in H as [H1 H2].
  rewrite H1. f_equal. apply IH. exact H2.
Qed.

Lemma replace_scan_skip (old new p r : str) :
  replace_scan old new (length p) (p ++ r) = replace_scan old new 0 r.
Proof. induction p as [|c p IH]; [reflexivity | exact IH]. Qed.

(** A string that begins with [old] begins with [new] after the
    replacement. *)
Lemma replace_head (old new r : str) :
  old <> [] -> replace old new (old ++ r) = new ++ replace old new r.
Proof.
  intros N. unfold replace. destruct old as [|o old]; [congruence|].
  cbn [app replace_scan].
  assert (W : startswith (o :: old) (o :: old ++ r) = true).
  { apply startswith_spec. exists r. reflexivity. }
  rewrite W. cbn [length].
  replace (S (length old) - 1)%nat with (length old) by lia.
  rewrite replace_scan_skip. reflexivity.
Qed.

(** ** The cleaned caption *)

Lemma garbage_fold_length (gs : list str) (c : str) :
  (length (fold_left (fun c g => replace g [] c) gs c) <= length c)%nat.
Proof.
  revert c. induction gs as [|g gs IH]; intros c; cbn [fold_left]; [lia|].
  specialize (IH (replace g [] c)). pose proof (remove_length g c). lia.
Qed.

(** X1.  The cleaned caption never begins or ends with white space, and it
    is never longer than the caption it was made from: cleaning only takes
    characters away. *)
Theorem clean_caption_trimmed (u c : str) :
  (forall ch r, clean_caption u c = ch :: r -> isspace ch = false) /\
  (forall ch r, clean_caption u c = r ++ [ch] -> isspace ch = false) /\
  strip (clean_caption u c) = clean_caption u c /\
  (length (clean_caption u c) <= length c)%nat.
Proof.
  unfold clean_caption.
  set (c1 := fold_left (fun c0 g => replace g [] c0) garbage c).
  set (c2 := if str_in u c1 then replace u [] c1 else c1).
  split; [|split; [|split]].
  - intros ch r. apply strip_ends.
  - intros ch r. apply strip_ends.
  - apply strip_strip.
  - pose proof (strip_length c2). pose proof (garbage_fold_length garbage c).
    fold c1 in H0.
    assert (length c2 <= length c1)%nat; [|lia].
    unfold c2. destruct (str_in u c1); [apply remove_length | lia].
Qed.

(** X2.  A caption that holds none of the artifacts and not the article
    URL is only trimmed. *)
Theorem clean_caption_of_clean_text (u c : str) :
  (forall g, In g garbage -> ~ occurs g c) ->
  ~ occurs u c ->
  clean_caption u c = strip c.
Proof.
  intros G U. unfold clean_caption, garbage in *. cbn [fold_left].
  assert (A : forall g, In g [lit "Caption Text:"; lit "CAPTION:"; lit "**"] ->
                        str_in g c = false).
  { intros g I. destruct (str_in g c) eqn:E; [|reflexivity].
    apply str_in_spec in E. exfalso. exact (G g I E). }
  rewrite (@replace_absent (lit "Caption Text:") [] c)
    by (try (vm_compute; discriminate); apply A; simpl; auto).
  rewrite (@replace_absent (lit "CAPTION:") [] c)
    by (try (vm_compute; discriminate); apply A; simpl; auto).
  rewrite (@replace_absent (lit "**") [] c)
    by (try (vm_compute; discriminate); apply A; simpl; auto).
  destruct (str_in u c) eqn:E; [|reflexivity].
  apply str_in_spec in E. contradiction.
Qed.

Lemma clean_caption_of_clean_text_witness :
  clean_caption scenario_url (lit "  Hello world ") = lit "Hello world".
Proof.
  rewrite (@clean_caption_of_clean_text scenario_url (lit "  Hello world ")).
  - vm_compute. reflexivity.
  - intros g I O. apply str_in_spec in O.
    simpl in I. destruct I as [<- | [<- | [<- | []]]];
      vm_compute in O; discriminate.
  - intros O. apply str_in_spec in O. vm_compute in O. discriminate.
Defined.

(** ** Image URL and tags of the extracted article *)

Lemma https_not_http (r : str) :
  startswith (lit "http://") (lit "https://" ++ r) = false.
Proof. reflexivity. Qed.

(** X3.  The image URL of an extracted article never begins with
    ["http://"]. *)
Theorem image_url_never_insecure (u : str) (doc : soup) (a : article)
  (s : str) :
  scrape_article u (Page doc) = Some a ->
  image_url a = Some s ->
  startswith (lit "http://") s = false.
Proof.
  unfold scrape_article. intros H. injection H as <-.
  unfold image_url, resolve_image.
  match goal with
  | |- match ?raw with _ => _ end = _ -> _ => destruct raw as [x|]
  end; [|discriminate].
  destruct (str_truthy x && startswith (lit "http://") x) eqn:E.
  - apply andb_true_iff in E as [_ E].
    apply startswith_spec in E as [r ->].
    rewrite replace_head by (vm_compute; discriminate).
    intros H. injection H as <-. apply https_not_http.
  - intros H. injection H as <-.
    destruct x as [|c x]; [reflexivity|]. exact E.
Qed.

Lemma image_url_never_insecure_witness :
  scrape_article scenario_url (Page sample_doc) = Some sample_article /\
  image_url sample_article = Some (lit "https://cdn.example.com/x.jpg") /\
  startswith (lit "http://") (lit "https://cdn.example.com/x.jpg") = false.
Proof.
  assert (S : scrape_article scenario_url (Page sample_doc)
              = Some sample_article) by (vm_compute; reflexivity).
  split; [exact S|]. split; [reflexivity|].
  apply (@image_url_never_insecure scenario_url sample_doc sample_article
           (lit "https://cdn.example.com/x.jpg") S).
  reflexivity.
Defined.

(** X4.  The image comes from the first [og:image] meta element when the
    page has one, whatever a [twitter:image] element says.  A URL there that
    begins with ["http://"] and holds no further ["http://"] comes out with
    ["https://"] in its place; a URL that does not begin with ["http://"]
    comes out as it is. *)
Theorem image_url_of_og_image (u : str) (doc : soup) (a : article)
  (og : node) :
  scrape_article u (Page doc) = Some a ->
  find_meta (lit "property") (lit "og:image") doc = Some og ->
  (forall rest,
      attr_get og (lit "content") = Some (lit "http://" ++ rest) ->
      ~ occurs (lit "http://") rest ->
      image_url a = Some (lit "https://" ++ rest)) /\
  (forall s,
      attr_get og (lit "content") = Some s ->
      startswith (lit "http://") s = false ->
      image_url a = Some s).
Proof.
  unfold scrape_article. intros H G. injection H as <-.
  unfold image_url, resolve_image. rewrite G. split.
  - intros rest -> N.
    assert (W : startswith (lit "http://") (lit "http://" ++ rest) = true)
      by (apply startswith_spec; eauto).
    rewrite W. change (str_truthy (lit "http://" ++ rest)) with true.
    cbn [andb]. rewrite replace_head by (vm_compute; discriminate).
    rewrite replace_absent; [reflexivity | vm_compute; discriminate |].
    destruct (str_in (lit "http://") rest) eqn:E; [|reflexivity].
    apply str_in_spec in E. contradiction.
  - intros s -> N. rewrite N, andb_false_r. reflexivity.
Qed.

Lemma image_url_of_og_image_witness :
  scrape_article scenario_url (Page sample_doc) = Some sample_article /\
  image_url sample_article
  = Some (lit "https://" ++ lit "cdn.example.com/x.jpg").
Proof.
  assert (S : scrape_article scenario_url (Page sample_doc)
              = Some sample_article) by (vm_compute; reflexivity).
  split; [exact S|].
  destruct (@image_url_of_og_image scenario_url sample_doc sample_article
              (Tag (lit "meta")
                 [(lit "property", lit "og:image");
                  (lit "content", lit "http://cdn.example.com/x.jpg")]
                 []) S) as [H _].
  - vm_compute. reflexivity.
  - apply H.
    + vm_compute. reflexivity.
    + intros O. apply str_in_spec in O. vm_compute in O. discriminate.
Defined.

Lemma dedup_In (x : str) (l : list str) : In x (dedup l) <-> In x l.
Proof.
  induction l as [|y l IH]; [reflexivity|]. cbn [dedup In].
  rewrite filter_In, IH. destruct (str_eq_dec y x) as [-> | N]; [tauto|].
  assert (E : negb (str_eqb y x) = true)
    by (apply negb_true_iff, str_eqb_neq; exact N).
  rewrite E. tauto.
Qed.

Lemma dedup_NoDup (l : list str) : NoDup (dedup l).
Proof.
  induction l as [|y l IH]; [constructor|]. cbn [dedup]. constructor.
  - rewrite filter_In. intros [_ E]. rewrite str_eqb_refl in E. discriminate.
  - apply NoDup_filter. exact IH.
Qed.

(** X5.  The tags of an extracted article are pairwise different, none is
    empty and none begins or ends with white space. *)
Theorem source_tags_clean (u : str) (doc : soup) (a : article) :
  scrape_article u (Page doc) = Some a ->
  NoDup (source_tags a) /\
  (forall t, In t (source_tags a) -> t <> [] /\ strip t = t).
Proof.
  unfold scrape_article. intros H. injection H as <-.
  unfold source_tags, resolve_tags. split; [apply dedup_NoDup|].
  intros t I. apply (proj1 (dedup_In _ _)) in I.
  apply filter_In in I as [I T].
  split; [destruct t; [discriminate | discriminate]|].
  apply in_app_or in I as [I | I].
  - destruct (find_meta (lit "name") (lit "keywords") doc) as [m|];
      [|contradiction].
    destruct (attr_get m (lit "content")) as [c|]; [|contradiction].
    destruct (str_truthy c); [|contradiction].
    apply in_map_iff in I as (raw & <- & _). apply strip_strip.
  - apply in_concat in I as (piece & I & J).
    apply in_map_iff in I as (tag & <- & _).
    destruct (attr_get tag (lit "content")) as [c|]; [|contradiction].
    destruct (str_truthy c); [|contradiction].
    destruct J as [<- | []]. apply strip_strip.
Qed.

Lemma source_tags_clean_witness :
  scrape_article scenario_url (Page sample_doc) = Some sample_article /\
  NoDup [lit "news"; lit "morning"] /\
  strip (lit "morning") = lit "morning".
Proof.
  assert (S : scrape_article scenario_url (Page sample_doc)
              = Some sample_article) by (vm_compute; reflexivity).
  split; [exact S|].
  destruct (@source_tags_clean scenario_url sample_doc sample_article S)
    as [D T].
  split; [exact D|].
  apply (T (lit "morning")). simpl. auto.
Defined.

(** ** What [generate_instagram_post] returns *)

Lemma post_process_post_text (u lang : str) (d r : dict) (v : json) :
  post_process u lang d = Some r ->
  dict_get r (lit "post_text") = Some v ->
  exists c, dict_get d (lit "post_text") = Some (JStr c) /\
            v = JStr (clean_caption u c) /\
            dict_get r (lit "language") = Some (JStr lang).
Proof.
  unfold post_process.
  destruct (dict_get d (lit "post_text")) as [[]|] eqn:G; try discriminate.
  - intros H. injection H as <-.
    rewrite dict_get_set_other by (vm_compute; congruence).
    rewrite dict_get_set_same. intros H. injection H as <-.
    eexists. split; [reflexivity|]. split; [reflexivity|].
    apply dict_get_set_same.
  - intros H. injection H as <-. congruence.
Qed.

(** X21.  When the element that decides the title has a non-empty value,
    the title is the first non-empty value in the order of the
    specification: the [og:title] content, the text of the first [h1], the
    text of [<title>], the fallback.  That is the case when the page has an
    [og:title] element with a non-empty content, or no such element and a
    first [h1] with text, or neither of the two elements. *)
Theorem title_first_nonempty (u : str) (doc : soup) (a : article) :
  scrape_article u (Page doc) = Some a ->
  (forall og, og_title doc = Some og ->
              opt_truthy (attr_get og (lit "content")) = true) ->
  (forall h1, og_title doc = None -> find (lit "h1") doc = Some h1 ->
              str_truthy (get_text_strip h1) = true) ->
  title a = Some (spec_title doc).
Proof.
  unfold scrape_article. intros H. injection H as <-.
  unfold title, resolve_title, og_title, title_string, spec_title.
  intros Hog Hh1.
  destruct (find_meta (lit "property") (lit "og:title") doc) as [og|].
  - specialize (Hog og eq_refl).
    destruct (attr_get og (lit "content")) as [[|c s]|]; try discriminate.
    reflexivity.
  - destruct (find (lit "h1") doc) as [h1|].
    + specialize (Hh1 h1 eq_refl eq_refl). cbn [option_map].
      unfold first_nonempty. cbn [List.map List.concat app filter].
      rewrite Hh1. reflexivity.
    + cbn [option_map]. unfold first_nonempty.
      destruct (find (lit "title") doc) as [t|]; [|reflexivity].
      destruct (node_string t) as [[|c s]|]; reflexivity.
Qed.

Lemma title_first_nonempty_witness :
  scrape_article scenario_url (Page sample_doc) = Some sample_article /\
  title sample_article = Some (lit "Morning news").
Proof.
  assert (S : scrape_article scenario_url (Page sample_doc)
              = Some sample_article) by (vm_compute; reflexivity).
  split; [exact S|].
  rewrite (@title_first_nonempty scenario_url sample_doc sample_article S).
  - vm_compute. reflexivity.
  - intros og E. vm_compute in E. injection E as <-. reflexivity.
  - intros h1 E. vm_compute in E. discriminate.
Defined.

(** X6.  Whenever the function returns a result that has a ['post_text'],
    that field is a string without white space at its ends, and the result
    carries the language chosen for the article URL, ["en"] or ["sv"]. *)
Theorem generated_post_text (article_data : article) (history : json)
  (answer : reply) (r : dict) (v : json) :
  generate_instagram_post article_data history answer = Ok (Some r) ->
  dict_get r (lit "post_text") = Some v ->
  exists c,
    v = JStr c /\ strip c = c /\
    dict_get r (lit "language")
      = Some (JStr (target_lang (url article_data))) /\
    (target_lang (url article_data) = lit "en" \/
     target_lang (url article_data) = lit "sv").
Proof.
  unfold generate_instagram_post.
  destruct (previous_angles history (url article_data)); [|discriminate].
  cbn [bind]. intros H. injection H as H.
  destruct answer as [|t]; [discriminate|].
  destruct (json_loads t) as [data rest| |]; try discriminate.
  destruct data; try discriminate. unfold normalize in H.
  intros G. destruct (post_process_post_text _ _ _ H G) as (c & _ & -> & L).
  exists (clean_caption (url article_data) c).
  split; [reflexivity|]. split; [unfold clean_caption; apply strip_strip|].
  split; [exact L|].
  unfold target_lang.
  destruct (str_in (lit "en-gb") (url article_data)
            || str_in (lit "/en/") (url article_data)
            || str_in (lit "-en-") (url article_data)); auto.
Qed.

Lemma generated_post_text_witness :
  exists r,
    generate_instagram_post sample_article (JObj sample_history)
      (ReplyText scenario_answer) = Ok (Some r) /\
    dict_get r (lit "post_text") = Some (JStr (lit "Hello  world")) /\
    dict_get r (lit "language") = Some (JStr (lit "sv")).
Proof.
  destruct (generate_instagram_post sample_article (JObj sample_history)
              (ReplyText scenario_answer)) as [[r|]|e] eqn:E;
    try (vm_compute in E; discriminate).
  exists r. split; [reflexivity|].
  assert (P : dict_get r (lit "post_text")
              = Some (JStr (lit "Hello  world"))).
  { vm_compute in E. injection E as <-. vm_compute. reflexivity. }
  split; [exact P|].
  destruct (@generated_post_text _ _ _ _ _ E P) as (c & _ & _ & L & _).
  rewrite L. vm_compute. reflexivity.
Defined.

(** X7.  The function raises only because of the history: with a history
    that is a mapping, or one that is empty or [None], it returns whatever
    the model does, and it returns [None] when the call fails, when the
    answer is not JSON and when the answer is JSON but not an object.  When
    it does raise, the exception is [TypeError] and the history is a
    non-empty value that is not a mapping. *)
Theorem generate_raises_only_on_history (article_data : article)
  (history : json) (answer : reply) :
  (truthy history = false \/ (exists h, history = JObj h) ->
   (exists r, generate_instagram_post article_data history answer = Ok r) /\
   (answer = ReplyError ->
    generate_instagram_post article_data history answer = Ok None) /\
   (forall t, answer = ReplyText t -> json_loads t = Malformed ->
              generate_instagram_post article_data history answer = Ok None) /\
   (forall t data rest,
       answer = ReplyText t -> json_loads t = Parsed data rest ->
       (forall d, data <> JObj d) ->
       generate_instagram_post article_data history answer = Ok None)) /\
  (forall e,
      generate_instagram_post article_data history answer = Raise e ->
      e = TypeError /\ truthy history = true /\
      forall h, history <> JObj h).
Proof.
  unfold generate_instagram_post. split.
  - intros M.
    assert (P : exists p, previous_angles history (url article_data) = Ok p).
    { destruct M as [F | [h ->]]; [|apply previous_angles_mapping].
      unfold previous_angles. rewrite F. eauto. }
    destruct P as [p ->]. cbn [bind].
    split; [eauto|]. split; [intros ->; reflexivity|]. split.
    + intros t -> ->. reflexivity.
    + intros t data rest -> -> N. destruct data; try reflexivity.
      exfalso. eapply N. reflexivity.
  - intros e. unfold previous_angles.
    destruct (truthy history) eqn:T; [|discriminate].
    destruct history; cbn [bind]; try discriminate;
      try (intros H; injection H as <-;
           split; [reflexivity|]; split; [reflexivity|]; discriminate).
    + destruct (str_in (url article_data) s); [|discriminate].
      intros H; injection H as <-.
      split; [reflexivity|]. split; [reflexivity|]. discriminate.
    + destruct (list_in (JStr (url article_data)) items); [|discriminate].
      intros H; injection H as <-.
      split; [reflexivity|]. split; [reflexivity|]. discriminate.
    + destruct (dict_get members (url article_data)); discriminate.
Qed.

(** ** What recording does to the history *)

(** X8.  On a history that is a mapping, a recording that succeeds either
    changes nothing and writes nothing, or it puts the angle at the end of
    the list of the URL (a new list when the URL was not there), leaves the
    angles that were there and the lists of all other URLs as they were, and
    hands the new history to [save_history]. *)
Theorem record_angle_appends (w : write_env) (h : dict) (u : str)
  (new_angle : json) (fs : file_state) (history' : json) (fs' : file_state) :
  record_angle w (JObj h) u new_angle fs = Ok (history', fs') ->
  (history' = JObj h /\ fs' = fs) \/
  exists h1 old,
    history' = JObj h1 /\
    (dict_get h u = Some (JArr old) \/ (dict_get h u = None /\ old = [])) /\
    list_in new_angle old = false /\
    dict_get h1 u = Some (JArr (old ++ [new_angle])) /\
    (forall k, k <> u -> dict_get h1 k = dict_get h k) /\
    fs' = fst (save_history w (JObj h1) fs).
Proof.
  unfold record_angle, dict_has.
  destruct (dict_get h u) as [v|] eqn:G.
  - rewrite G. destruct v; try discriminate.
    + destruct new_angle; try discriminate.
      destruct (str_in s0 s); [|discriminate].
      intros H; injection H as <- <-. left. auto.
    + destruct (list_in new_angle items) eqn:I.
      * intros H; injection H as <- <-. left. auto.
      * intros H; injection H as <- <-. right.
        exists (dict_set h u (JArr (items ++ [new_angle]))), items.
        split; [reflexivity|]. split; [left; reflexivity|].
        split; [exact I|]. split; [apply dict_get_set_same|].
        split; [|reflexivity].
        intros k N. apply dict_get_set_other. congruence.
    + destruct new_angle; try discriminate.
      destruct (match dict_get members s with
                | Some _ => true
                | None => false
                end); [|discriminate].
      intros H; injection H as <- <-. left. auto.
  - rewrite dict_get_set_same. cbn [list_in existsb app].
    intros H; injection H as <- <-. right.
    exists (dict_set (dict_set h u (JArr [])) u (JArr [new_angle])), [].
    split; [reflexivity|]. split; [right; auto|].
    split; [reflexivity|]. split; [apply dict_get_set_same|].
    split; [|reflexivity].
    intros k N. rewrite !dict_get_set_other by congruence. reflexivity.
Qed.

Lemma record_angle_appends_witness :
  exists h1 fs',
    record_angle sample_disk (JObj sample_history) scenario_url
      (JStr (lit "health angle")) Missing = Ok (JObj h1, fs') /\
    dict_get h1 scenario_url
    = Some (JArr ([JStr (lit "older angle")] ++ [JStr (lit "health angle")])).
Proof.
  destruct (record_angle sample_disk (JObj sample_history) scenario_url
              (JStr (lit "health angle")) Missing)
    as [[history' fs'] | e] eqn:E; [|vm_compute in E; discriminate].
  destruct (@record_angle_appends _ _ _ _ _ _ _ E)
    as [[_ F] | (h1 & old & -> & [G | [G _]] & _ & G1 & _)].
  - exfalso. vm_compute in E. injection E as _ E. rewrite F in E.
    discriminate.
  - vm_compute in G. injection G as <-.
    exists h1, fs'. split; [reflexivity | exact G1].
  - vm_compute in G. discriminate.
Defined.

Lemma new_angle_of_backfill (u : str) (data : article) (result : dict) :
  new_angle_of (backfill u data result) = new_angle_of result.
Proof.
  unfold new_angle_of.
  assert (I : dict_get (backfill u data result) (lit "instagram_post")
              = dict_get result (lit "instagram_post")).
  { apply backfill_other. vm_compute. intuition discriminate. }
  assert (A : dict_get (backfill u data result) (lit "angle_description")
              = dict_get result (lit "angle_description")).
  { apply backfill_other. vm_compute. intuition discriminate. }
  rewrite I.
  destruct (dict_get result (lit "instagram_post")) as [v|];
    [destruct (truthy v); [reflexivity|]|]; rewrite A; reflexivity.
Qed.

(** X9.  Where the angle is taken from.  When the result has an
    ['instagram_post'] that is not empty, the angle is looked for there and
    nowhere else: if it is not an object, or has no ['angle_description'],
    or an empty one, nothing is recorded, whatever the top level of the
    result holds.  When ['instagram_post'] is missing or empty, a top-level
    ['angle_description'] is the angle that is recorded. *)
Theorem angle_source (w : write_env) (history : json) (u : str)
  (result : dict) (fs : file_state) :
  (forall ip,
      dict_get result (lit "instagram_post") = Some ip -> truthy ip = true ->
      (forall pd a, ip = JObj pd ->
                    dict_get pd (lit "angle_description") = Some a ->
                    truthy a = false) ->
      save_angle w history u result fs = Ok (history, fs)) /\
  (forall a,
      (forall ip, dict_get result (lit "instagram_post") = Some ip ->
                  truthy ip = false) ->
      dict_get result (lit "angle_description") = Some a ->
      truthy a = true -> u <> [] ->
      save_angle w history u result fs = record_angle w history u a fs).
Proof.
  unfold save_angle, new_angle_of. split.
  - intros ip G T N. rewrite G, T.
    destruct (truthy (JObj result) && str_truthy u); [|reflexivity].
    destruct ip; try reflexivity.
    destruct (dict_get members (lit "angle_description")) as [a|] eqn:A;
      [|reflexivity].
    rewrite (N members a eq_refl A). reflexivity.
  - intros a N A T U.
    assert (R : truthy (JObj result) = true)
      by (destruct result; [discriminate | reflexivity]).
    rewrite R. destruct u as [|c u]; [congruence|]. cbn [str_truthy andb].
    destruct (dict_get result (lit "instagram_post")) as [ip|].
    + rewrite (N ip eq_refl). rewrite A, T. reflexivity.
    + rewrite A, T. reflexivity.
Qed.

(** ** How a run ends *)

Lemma previous_angles_error (history : json) (u : str) (e : exn) :
  previous_angles history u = Raise e -> e = TypeError.
Proof.
  unfold previous_angles. destruct (truthy history); [|discriminate].
  destruct history; try discriminate;
    try (intros H; injection H as <-; reflexivity).
  - destruct (str_in u s); [|discriminate].
    intros H; injection H as <-; reflexivity.
  - destruct (list_in (JStr u) items); [|discriminate].
    intros H; injection H as <-; reflexivity.
  - destruct (dict_get members u); discriminate.
Qed.


Lemma usable_key (gemini google : option str) :
  opt_truthy gemini || opt_truthy google = true ->
  exists key, get_api_key gemini google = Some key /\ str_truthy key = true.
Proof.
  unfold get_api_key. destruct (opt_truthy gemini) eqn:G.
  - intros _. destruct gemini as [k|]; [|discriminate]. eauto.
  - cbn [orb]. intros T. destruct google as [k|]; [|discriminate]. eauto.
Qed.

Lemma no_usable_key (gemini google : option str) :
  opt_truthy gemini = false -> opt_truthy google = false ->
  match get_api_key gemini google with
  | Some key => str_truthy key = false
  | None => True
  end.
Proof.
  unfold get_api_key. intros G T. rewrite G.
  destruct google as [k|]; [exact T | exact I].
Qed.


(** With a history that was loaded as something else than a mapping, a run
    that gets an angle from the model ends with [TypeError]: at the test
    for earlier angles or when the angle is recorded. *)
Lemma main_type_error_on_other_json (w : world) (doc : soup) (hv : json)
  (t : str) (data : json) (rest : str) (r : dict) :
  opt_truthy (gemini_api_key w) || opt_truthy (google_api_key w) = true ->
  response w = Page doc ->
  arg_url w <> [] ->
  load_history (history_file w) = Ok hv ->
  (forall h, hv <> JObj h) ->
  answer w = ReplyText t ->
  json_loads t = Parsed data rest ->
  normalize (arg_url w) data = Some r ->
  truthy (new_angle_of r) = true ->
  main w = Crashed TypeError.
Proof.
  intros K P U L N A J Z T. unfold main.
  destruct (usable_key _ _ K) as (key & -> & ->). cbn [negb].
  rewrite P. cbn [scrape_article]. rewrite L.
  unfold generate_instagram_post. cbn [url].
  destruct (previous_angles hv (arg_url w)) as [p|e] eqn:E.
  - cbn [bind]. rewrite A, J, Z.
    assert (R : truthy (JObj r) = true).
    { destruct r; [|reflexivity]. vm_compute in T. discriminate. }
    rewrite R. unfold save_angle.
    assert (R' : forall d, truthy (JObj (backfill (arg_url w) d r)) = true).
    { intros d. unfold backfill.
      repeat match goal with
             | |- context [if ?b then _ else _] => destruct b
             end;
        try exact R;
        match goal with
        | |- truthy (JObj (dict_set ?m ?k ?v)) = true =>
            destruct m as [|[k0 v0] m']; cbn [dict_set];
            [reflexivity | destruct (str_eqb k0 k); reflexivity]
        end. }
    rewrite R'. destruct (arg_url w) as [|c u] eqn:AU; [congruence|].
    cbn [str_truthy andb]. rewrite new_angle_of_backfill, T.
    unfold record_angle. destruct hv; try reflexivity.
    exfalso. eapply N. reflexivity.
  - cbn [bind]. apply previous_angles_error in E. subst. reflexivity.
Qed.

(** X12.  Without a non-empty value in [GEMINI_API_KEY] or in
    [GOOGLE_API_KEY] every run ends with [sys.exit(1)], whatever the page,
    the history file and the model would have given: the test comes before
    the history file is opened, so a file that cannot be read raises
    nothing. *)
Theorem main_and_the_api_key (w : world) :
  opt_truthy (gemini_api_key w) = false ->
  opt_truthy (google_api_key w) = false ->
  main w = Exit1.
Proof.
  intros G T. unfold main. pose proof (no_usable_key _ _ G T) as N.
  destruct (get_api_key (gemini_api_key w) (google_api_key w)) as [key|];
    [|reflexivity].
  rewrite N. reflexivity.
Qed.

Lemma main_and_the_api_key_witness :
  main {| gemini_api_key := Some [];
          google_api_key := None;
          arg_url := scenario_url;
          response := Page sample_doc;
          history_file := Unopenable;
          answer := ReplyText scenario_answer;
          disk := sample_disk |}
  = Exit1.
Proof. apply main_and_the_api_key; reflexivity. Defined.

Lemma backfill_has (u : str) (data : article) (result : dict) (k : str) :
  In k identity_fields -> dict_has (backfill u data result) k = true.
Proof.
  intros I.
  set (data' := {| url := u; title := title data;
                   structure := structure data; content := content data;
                   image_url := image_url data;
                   source_tags := source_tags data |}).
  change (backfill u data result) with (backfill u data' result).
  unfold dict_has.
  rewrite (@backfill_get u data' result k eq_refl I).
  destruct (lacks result k) eqn:L; [reflexivity|].
  unfold lacks in L. destruct (dict_get result k); [reflexivity|discriminate].
Qed.

Lemma backfill_article_url (u : str) (data : article) (result : dict) :
  u <> [] -> lacks (backfill u data result) (lit "article_url") = false.
Proof.
  intros N.
  set (data' := {| url := u; title := title data;
                   structure := structure data; content := content data;
                   image_url := image_url data;
                   source_tags := source_tags data |}).
  change (backfill u data result) with (backfill u data' result).
  unfold lacks at 1.
  rewrite (@backfill_get u data' result (lit "article_url") eq_refl)
    by (simpl; auto).
  destruct (lacks result (lit "article_url")) eqn:L.
  - rewrite extracted_article_url. cbn [url data' truthy].
    destruct u; [congruence | reflexivity].
  - exact L.
Qed.

(** X13.  After the back-fill the result has the three fields
    ['article_url'], ['image_url'] and ['title']; every other field is as
    the model gave it; and ['article_url'] is non-empty whenever the URL of
    the run is. *)
Theorem backfill_result (u : str) (data : article) (result : dict) :
  (forall k, In k identity_fields ->
             dict_has (backfill u data result) k = true) /\
  (forall k, ~ In k identity_fields ->
             dict_get (backfill u data result) k = dict_get result k) /\
  (u <> [] -> lacks (backfill u data result) (lit "article_url") = false).
Proof.
  split; [|split].
  - intros k I. apply backfill_has. exact I.
  - intros k N. unfold backfill.
    assert (N1 : lit "article_url" <> k) by (intros <-; apply N; simpl; auto).
    assert (N2 : lit "image_url" <> k) by (intros <-; apply N; simpl; auto).
    assert (N3 : lit "title" <> k) by (intros <-; apply N; simpl; auto).
    repeat match goal with
           | |- context [if ?b then _ else _] => destruct b
           end;
      rewrite ?dict_get_set_other by assumption; reflexivity.
  - apply backfill_article_url.
Qed.

(** What stands behind a run that reached the end. *)
Lemma main_finished (w : world) (result : dict) (history' : json)
  (fs' : file_state) :
  main w = Finished result history' fs' ->
  exists data h0 r0,
    scrape_article (arg_url w) (response w) = Some data /\
    load_history (history_file w) = Ok h0 /\
    generate_instagram_post data h0 (answer w) = Ok (Some r0) /\
    result = backfill (arg_url w) data r0 /\
    save_angle (disk w) h0 (arg_url w) result (history_file w)
    = Ok (history', fs').
Proof.
  unfold main.
  destruct (get_api_key (gemini_api_key w) (google_api_key w)) as [key|];
    [|discriminate].
  destruct (negb (str_truthy key)); [discriminate|].
  destruct (scrape_article (arg_url w) (response w)) as [data|] eqn:A;
    [|discriminate].
  destruct (load_history (history_file w)) as [h0|] eqn:L; [|discriminate].
  destruct (generate_instagram_post data h0 (answer w)) as [[r0|]|] eqn:G;
    try discriminate.
  destruct (truthy (JObj r0)); [|discriminate].
  destruct (save_angle (disk w) h0 (arg_url w)
              (backfill (arg_url w) data r0) (history_file w))
    as [[h1 fs1]|] eqn:S; [|discriminate].
  intros H. injection H as <- <- <-.
  exists data, h0, r0. repeat split; try reflexivity; assumption.
Qed.

Lemma record_angle_file (w : write_env) (history : json) (u : str)
  (a : json) (fs : file_state) (history' : json) (fs' : file_state) :
  record_angle w history u a fs = Ok (history', fs') ->
  (history' = history /\ fs' = fs) \/
  fs' = fst (save_history w history' fs).
Proof.
  unfold record_angle. destruct history; try discriminate.
  unfold dict_has. destruct (dict_get members u) as [v|] eqn:G.
  - rewrite G. destruct v; try discriminate.
    + destruct a; try discriminate. destruct (str_in s0 s); [|discriminate].
      intros H; injection H as <- <-. auto.
    + destruct (list_in a items); intros H; injection H as <- <-; auto.
    + destruct a; try discriminate.
      destruct (match dict_get members0 s with
                | Some _ => true
                | None => false
                end); [|discriminate].
      intros H; injection H as <- <-. auto.
  - rewrite dict_get_set_same. cbn [list_in existsb].
    intros H; injection H as <- <-. auto.
Qed.

Lemma save_angle_file (w : write_env) (history : json) (u : str)
  (result : dict) (fs : file_state) (history' : json) (fs' : file_state) :
  save_angle w history u result fs = Ok (history', fs') ->
  (history' = history /\ fs' = fs) \/
  fs' = fst (save_history w history' fs).
Proof.
  unfold save_angle.
  destruct (truthy (JObj result) && str_truthy u);
    [|intros H; injection H as <- <-; auto].
  destruct (truthy (new_angle_of result));
    [|intros H; injection H as <- <-; auto].
  apply record_angle_file.
Qed.

(** X14.  A run that reaches the end has printed a result with the three
    identity fields, with a non-empty ['article_url'] when the URL of the
    run is non-empty; the history file was loaded without an exception, and
    it is either untouched, with the history in memory as loaded, or it is
    what [save_history] left when it was given the final history. *)
Theorem finished_run (w : world) (result : dict) (history' : json)
  (fs' : file_state) :
  main w = Finished result history' fs' ->
  (forall k, In k identity_fields -> dict_has result k = true) /\
  (arg_url w <> [] -> lacks result (lit "article_url") = false) /\
  exists h0,
    load_history (history_file w) = Ok h0 /\
    ((history' = h0 /\ fs' = history_file w) \/
     fs' = fst (save_history (disk w) history' (history_file w))).
Proof.
  intros M.
  destruct (main_finished _ M) as (data & h0 & r0 & _ & L & _ & -> & S).
  split; [intros k I; apply backfill_has; exact I|].
  split; [apply backfill_article_url|].
  exists h0. split; [exact L|]. eapply save_angle_file. exact S.
Qed.

Lemma finished_run_witness :
  exists result history' fs',
    main sample_world = Finished result history' fs' /\
    dict_has result (lit "image_url") = true /\
    lacks result (lit "article_url") = false /\
    load_history (history_file sample_world) = Ok (JObj sample_history) /\
    fs' = fst (save_history (disk sample_world) history'
                 (history_file sample_world)).
Proof.
  destruct (main sample_world) as [|e|result history' fs'] eqn:M;
    try (vm_compute in M; discriminate).
  exists result, history', fs'. split; [reflexivity|].
  destruct (@finished_run _ _ _ _ M) as (I & A & h0 & L & D).
  split; [apply I; simpl; auto|].
  split; [apply A; discriminate|].
  split; [vm_compute; reflexivity|].
  destruct D as [[_ F] | F]; [|exact F].
  exfalso. vm_compute in M. injection M as _ _ M. rewrite F in M.
  vm_compute in M. discriminate.
Defined.

Lemma record_angle_keeps_shape (w : write_env) (h : dict) (u a : str)
  (fs : file_state) (history' : json) (fs' : file_state) :
  well_formed h -> unique_keys h ->
  record_angle w (JObj h) u (JStr a) fs = Ok (history', fs') ->
  exists h1, history' = JObj h1 /\ well_formed h1 /\ unique_keys h1.
Proof.
  intros W U. unfold record_angle, dict_has.
  destruct (dict_get h u) as [v|] eqn:G.
  - rewrite G. destruct (W _ _ G) as [l E]. unfold angle_list in E. subst v.
    destruct (list_in (JStr a) (List.map JStr l)).
    + intros H; injection H as <- <-. eauto.
    + intros H; injection H as <- <-.
      change [JStr a] with (List.map JStr [a]). rewrite <- map_app.
      eexists. split; [reflexivity|].
      split; [apply well_formed_set; exact W | apply dict_set_unique; exact U].
  - rewrite dict_get_set_same. cbn [list_in existsb app].
    intros H; injection H as <- <-.
    eexists. split; [reflexivity|]. split.
    + apply (well_formed_set u [a]). apply (well_formed_set u []). exact W.
    + apply dict_set_unique. apply dict_set_unique. exact U.
Qed.

Lemma load_written_history (w : write_env) (h : dict) (fs : file_state) :
  well_formed h -> unique_keys h ->
  open_ok w = true -> write_ok w = true ->
  encodable (json_dumps (JObj h)) = true ->
  load_history (fst (save_history w (JObj h) fs)) = Ok (JObj h).
Proof.
  intros W U O R E. unfold save_history. rewrite O, R, E. cbn [andb fst].
  destruct (well_formed_entries W U) as (entries & -> & U').
  unfold load_history. rewrite json_loads_dumps_history by assumption.
  reflexivity.
Qed.

(** X15.  What a run leaves is what the next run loads.  When the history
    file held a mapping of URLs to lists of strings, the angle of the run (if
    it has one) is a string, and writing works, then loading the history
    file after a run that reached the end gives the history the run ended
    with. *)
Theorem run_then_reload (w : world) (h : dict) (result : dict)
  (history' : json) (fs' : file_state) :
  main w = Finished result history' fs' ->
  load_history (history_file w) = Ok (JObj h) ->
  well_formed h -> unique_keys h ->
  (truthy (new_angle_of result) = true ->
   exists a, new_angle_of result = JStr a) ->
  open_ok (disk w) = true -> write_ok (disk w) = true ->
  encodable (json_dumps history') = true ->
  load_history fs' = Ok history'.
Proof.
  intros M L W U A O R E.
  destruct (main_finished _ M) as (data & h0 & r0 & _ & L' & _ & -> & S).
  rewrite L in L'. injection L' as <-.
  unfold save_angle in S.
  destruct (truthy (JObj (backfill (arg_url w) data r0))
            && str_truthy (arg_url w));
    [|injection S as <- <-; exact L].
  destruct (truthy (new_angle_of (backfill (arg_url w) data r0))) eqn:T;
    [|injection S as <- <-; exact L].
  destruct (A eq_refl) as [a Ea]. rewrite Ea in S.
  destruct (record_angle_keeps_shape _ _ _ _ W U S) as (h1 & -> & W1 & U1).
  destruct (record_angle_file _ _ _ _ _ S) as [[E1 ->] | ->].
  - injection E1 as ->. exact L.
  - apply load_written_history; assumption.
Qed.

Lemma run_then_reload_witness :
  exists result history' fs',
    main sample_world = Finished result history' fs' /\
    load_history fs' = Ok history'.
Proof.
  destruct (main sample_world) as [|e|result history' fs'] eqn:M;
    try (vm_compute in M; discriminate).
  exists result, history', fs'. split; [reflexivity|].
  apply (@run_then_reload sample_world sample_history result history' fs' M).
  - vm_compute. reflexivity.
  - apply (history_json_well_formed [(scenario_url, [lit "older angle"])]).
  - repeat constructor. simpl. tauto.
  - intros _. vm_compute in M. injection M as <- _ _.
    eexists. vm_compute. reflexivity.
  - reflexivity.
  - reflexivity.
  - vm_compute in M. injection M as _ <- _. vm_compute. reflexivity.
Defined.

(** ** A write that was cut short *)


























(** ** The [.env] fallback *)

Lemma str_in_char (c : char) (s : str) : str_in [c] s = true <-> In c s.
Proof.
  rewrite str_in_spec. unfold occurs. split.
  - intros (b & a & ->). apply in_or_app. right. left. reflexivity.
  - intros I. apply in_split in I as (b & a & ->). exists b, a. reflexivity.
Qed.

Lemma lstrip_keeps (c : char) (s : str) :
  isspace c = false -> In c s -> In c (lstrip s).
Proof.
  intros Hc. induction s as [|a s IH]; intros I; [destruct I|].
  cbn [lstrip]. destruct (isspace a) eqn:Ea; [|exact I].
  destruct I as [-> | I]; [congruence | exact (IH I)].
Qed.

Lemma strip_keeps (c : char) (s : str) :
  isspace c = false -> In c s -> In c (strip s).
Proof.
  intros Hc I. unfold strip, rstrip.
  apply -> in_rev. apply lstrip_keeps; [exact Hc|].
  apply -> in_rev. apply lstrip_keeps; assumption.
Qed.

Lemma split_first_found (sep : char) (s : str) :
  forall cur, In sep s ->
    exists before after,
      s = before ++ sep :: after /\ ~ In sep before /\
      split_first sep cur s = [rev cur ++ before; after].
Proof.
  induction s as [|c s IH]; intros cur I; [destruct I|].
  cbn [split_first]. unfold char_eqb.
  destruct (N.eqb_spec c sep) as [-> | Ne].
  - exists [], s. rewrite app_nil_r. repeat split; auto.
  - destruct I as [E | I]; [congruence|].
    destruct (IH (c :: cur) I) as (b & a & -> & Nb & E).
    exists (c :: b), a. split; [reflexivity|]. split.
    + intros [X | X]; [congruence | exact (Nb X)].
    + rewrite E. cbn [rev]. rewrite <- app_assoc. reflexivity.
Qed.

Lemma split_first_app (sep : char) (k rest : str) :
  forall cur, ~ In sep k ->
    split_first sep cur (k ++ sep :: rest) = [rev cur ++ k; rest].
Proof.
  induction k as [|c k IH]; intros cur N; cbn [app split_first];
    unfold char_eqb.
  - rewrite N.eqb_refl, app_nil_r. reflexivity.
  - destruct (N.eqb_spec c sep) as [-> | Ne]; [exfalso; apply N; left; auto|].
    rewrite IH by (intros X; apply N; right; exact X).
    cbn [rev]. rewrite <- app_assoc. reflexivity.
Qed.

(** The unpacking of line 20 never fails: the test of line 19 has seen an
    equals sign, and [strip] leaves it in the line. *)
Lemma manual_env_line_unpacks (line : str) :
  manual_env_line line <> UnpackFails.
Proof.
  unfold manual_env_line. change (lit "=") with [61].
  destruct (str_in [61] line) eqn:I; [|discriminate].
  destruct (startswith (lit "#") line); [discriminate|]. cbn [negb andb].
  apply str_in_char in I.
  assert (I' : In 61 (strip line))
    by (apply strip_keeps; [reflexivity | exact I]).
  destruct (@split_first_found 61 (strip line) [] I') as (b & a & _ & _ & ->).
  discriminate.
Qed.

Lemma manual_env_line_assign (line k v : str) :
  manual_env_line line = Assign k v ->
  In 61 line /\ startswith (lit "#") line = false /\ ~ In 61 k /\
  exists v0, strip line = k ++ 61 :: v0 /\ v = strip_chars quotes v0.
Proof.
  unfold manual_env_line. change (lit "=") with [61].
  destruct (str_in [61] line) eqn:I; [|discriminate].
  destruct (startswith (lit "#") line); [discriminate|]. cbn [negb andb].
  apply str_in_char in I.
  assert (I' : In 61 (strip line))
    by (apply strip_keeps; [reflexivity | exact I]).
  destruct (@split_first_found 61 (strip line) [] I') as (b & a & E & Nb & ->).
  cbn [rev app]. intros K. injection K as <- <-.
  split; [exact I|]. split; [reflexivity|]. split; [exact Nb|].
  exists a. split; [exact E | reflexivity].
Qed.

(** X17.  A line of the [.env] file sets nothing exactly when it has no
    equals sign or begins with [#]; the unpacking into name and value never
    fails; and the name of an assignment is the text of the stripped line
    before its first equals sign, so it holds no equals sign, the value is
    the text after it with the quotes at its ends taken off. *)
Theorem manual_env_line_cases (line : str) :
  manual_env_line line <> UnpackFails /\
  (manual_env_line line = NoAssignment <->
   ~ In 61 line \/ startswith (lit "#") line = true) /\
  (forall k v,
      manual_env_line line = Assign k v ->
      ~ In 61 k /\
      exists v0, strip line = k ++ 61 :: v0 /\ v = strip_chars quotes v0).
Proof.
  split; [apply manual_env_line_unpacks|]. split.
  - split.
    + intros E. unfold manual_env_line in E. change (lit "=") with [61] in E.
      destruct (str_in [61] line) eqn:I.
      * destruct (startswith (lit "#") line); [right; reflexivity|].
        cbn [negb andb] in E.
        destruct (split_first 61 [] (strip line)) as [|x [|y [|z l]]];
          discriminate.
      * left. intros X. apply str_in_char in X.
        exact (eq_true_false_abs _ X I).
    + intros [N | H]; unfold manual_env_line; change (lit "=") with [61].
      * destruct (str_in [61] line) eqn:I; [|reflexivity].
        apply str_in_char in I. contradiction.
      * rewrite H, andb_false_r. reflexivity.
  - intros k v E.
    destruct (manual_env_line_assign _ E) as (_ & _ & Nk & V).
    split; assumption.
Qed.

Lemma is_quote_not_space (c : char) : is_quote c = true -> isspace c = false.
Proof.
  unfold is_quote, quotes. cbn [existsb]. unfold char_eqb.
  destruct (N.eqb_spec c 34) as [-> | _]; [reflexivity|].
  destruct (N.eqb_spec c 39) as [-> | _]; [reflexivity | discriminate].
Qed.

Lemma head_is_false_app (p : char -> bool) (a b : str) :
  head_is p a = false -> head_is p b = false -> head_is p (a ++ b) = false.
Proof. destruct a; auto. Qed.

Lemma head_is_quotes (q : str) :
  forallb is_quote q = true -> head_is isspace q = false.
Proof.
  destruct q as [|c q]; [reflexivity|]. cbn [forallb head_is]. intros H.
  apply andb_true_iff in H as [H _]. apply is_quote_not_space. exact H.
Qed.

Lemma forallb_rev_true (p : char -> bool) (l : str) :
  forallb p l = true -> forallb p (rev l) = true.
Proof.
  rewrite !forallb_forall. intros H x I. apply H. apply in_rev. exact I.
Qed.

Lemma lstrip_head_is (s : str) : head_is isspace s = false -> lstrip s = s.
Proof. destruct s; [reflexivity|]. cbn [head_is lstrip]. intros ->. reflexivity. Qed.

Lemma lstrip_blank_app (w X : str) :
  forallb isspace w = true -> lstrip (w ++ X) = lstrip X.
Proof.
  induction w as [|c w IH]; [reflexivity|]. cbn [forallb app lstrip].
  intros H. apply andb_true_iff in H as [-> H]. apply IH. exact H.
Qed.

Lemma lstrip_chars_head_is (s : str) :
  head_is is_quote s = false -> lstrip_chars quotes s = s.
Proof.
  destruct s; [reflexivity|]. cbn [head_is lstrip_chars]. unfold is_quote.
  intros ->. reflexivity.
Qed.

Lemma lstrip_chars_all (q X : str) :
  forallb is_quote q = true ->
  lstrip_chars quotes (q ++ X) = lstrip_chars quotes X.
Proof.
  induction q as [|c q IH]; [reflexivity|]. cbn [forallb app lstrip_chars].
  unfold is_quote at 1. intros H. apply andb_true_iff in H as [-> H].
  apply IH. exact H.
Qed.

(** What [strip] leaves of a line that does not begin with white space and
    has white space after its last other character. *)
Lemma strip_body (body w : str) :
  head_is isspace body = false -> head_is isspace (rev body) = false ->
  forallb isspace w = true -> strip (body ++ w) = body.
Proof.
  intros B R W. unfold strip, rstrip. destruct body as [|c body].
  - cbn [app]. rewrite <- (app_nil_r w), lstrip_blank_app by exact W.
    reflexivity.
  - cbn [head_is] in B. cbn [app lstrip]. rewrite B.
    change (c :: body ++ w) with ((c :: body) ++ w).
    rewrite rev_app_distr, lstrip_blank_app by (apply forallb_rev_true, W).
    rewrite (lstrip_head_is _ R). apply rev_involutive.
Qed.

Lemma strip_chars_value (q1 v q2 : str) :
  forallb is_quote q1 = true -> forallb is_quote q2 = true ->
  head_is is_quote v = false -> head_is is_quote (rev v) = false ->
  strip_chars quotes (q1 ++ v ++ q2) = v.
Proof.
  intros Q1 Q2 V R. unfold strip_chars.
  rewrite lstrip_chars_all by exact Q1. destruct v as [|c v].
  - cbn [app]. rewrite <- (app_nil_r q2), lstrip_chars_all by exact Q2.
    reflexivity.
  - rewrite (@lstrip_chars_head_is ((c :: v) ++ q2)) by exact V.
    rewrite rev_app_distr, lstrip_chars_all by (apply forallb_rev_true, Q2).
    rewrite (lstrip_chars_head_is _ R). apply rev_involutive.
Qed.

(** X18.  A line [NAME=value] is read as it was written: with a name that
    has no equals sign and begins neither with white space nor with [#],
    and a value without quotes at its ends and without white space at its
    end, the line gives the assignment of that value to that name, whatever
    quotes stand around the value and whatever white space ends the line. *)
Theorem manual_env_line_reads (k v q1 q2 w : str) :
  ~ In 61 k -> head_is isspace k = false ->
  startswith (lit "#") k = false ->
  forallb is_quote q1 = true -> forallb is_quote q2 = true ->
  head_is is_quote v = false -> head_is is_quote (rev v) = false ->
  head_is isspace (rev v) = false ->
  forallb isspace w = true ->
  manual_env_line (k ++ 61 :: q1 ++ v ++ q2 ++ w) = Assign k v.
Proof.
  intros Nk Sk Hk Q1 Q2 V R Rs W. unfold manual_env_line.
  change (lit "=") with [61].
  assert (I : str_in [61] (k ++ 61 :: q1 ++ v ++ q2 ++ w) = true).
  { apply str_in_char. apply in_or_app. right. left. reflexivity. }
  rewrite I.
  assert (H : startswith (lit "#") (k ++ 61 :: q1 ++ v ++ q2 ++ w) = false).
  { destruct k as [|c k]; [reflexivity|]. cbn [app].
    change (lit "#") with [35] in *. cbn [startswith] in *.
    rewrite andb_true_r in *. exact Hk. }
  rewrite H. cbn [negb andb].
  replace (k ++ 61 :: q1 ++ v ++ q2 ++ w)
    with ((k ++ 61 :: q1 ++ v ++ q2) ++ w)
    by (rewrite <- !app_assoc; cbn [app]; rewrite <- !app_assoc; reflexivity).
  rewrite strip_body.
  - pose proof (@split_first_app 61 k (q1 ++ v ++ q2) [] Nk) as S.
    cbn [rev app] in S.
    match goal with
    | |- context [split_first ?a ?b ?c] =>
        replace (split_first a b c) with [k; q1 ++ v ++ q2]
          by (symmetry; exact S)
    end.
    rewrite strip_chars_value by assumption. reflexivity.
  - destruct k as [|c k]; [reflexivity | exact Sk].
  - rewrite rev_app_distr. cbn [rev]. rewrite !rev_app_distr.
    rewrite <- !app_assoc. cbn [app].
    repeat apply head_is_false_app;
      try (apply head_is_quotes, forallb_rev_true; assumption);
      try assumption; reflexivity.
  - exact W.
Qed.

Lemma manual_env_line_reads_witness :
  manual_env_line
    (lit "GEMINI_API_KEY" ++ 61 :: [34] ++ lit "fresh" ++ [34] ++ [13; 10])
  = Assign (lit "GEMINI_API_KEY") (lit "fresh").
Proof.
  apply (@manual_env_line_reads (lit "GEMINI_API_KEY") (lit "fresh")
           [34] [34] [13; 10]); try reflexivity.
  intros I. apply str_in_char in I. vm_compute in I. discriminate.
Defined.

(** ** The loop over the lines *)

Lemma manual_env_loader_app (accepts : str -> str -> bool)
  (l1 l2 : list str) :
  forall env,
    manual_env_loader accepts env (l1 ++ l2)
    = match manual_env_loader accepts env l1 with
      | Some env1 => manual_env_loader accepts env1 l2
      | None => None
      end.
Proof.
  induction l1 as [|line l1 IH]; intros env; [reflexivity|].
  cbn [app manual_env_loader].
  destruct (manual_env_line line) as [|k v|]; [apply IH | | reflexivity].
  destruct (accepts k v); [apply IH | reflexivity].
Qed.

(** A name that no line assigns keeps its value. *)
Lemma manual_env_loader_frame (accepts : str -> str -> bool)
  (lines : list str) (name : str) :
  (forall line k v,
      In line lines -> manual_env_line line = Assign k v -> k <> name) ->
  forall env env',
    manual_env_loader accepts env lines = Some env' ->
    getenv env' name = getenv env name.
Proof.
  induction lines as [|line lines IH]; intros F env env' L.
  - injection L as <-. reflexivity.
  - cbn [manual_env_loader] in L.
    assert (F' : forall l k v,
               In l lines -> manual_env_line l = Assign k v -> k <> name)
      by (intros l k v I; apply F; right; exact I).
    destruct (manual_env_line line) as [|k v|] eqn:E; [eauto | | discriminate].
    destruct (accepts k v); [|discriminate].
    rewrite (IH F' _ _ L). unfold getenv.
    apply dict_get_set_other. apply (F line k v); [left; reflexivity | exact E].
Qed.

Lemma manual_env_loader_last (accepts : str -> str -> bool)
  (before after : list str) (line name v : str) (env env' : environ) :
  manual_env_loader accepts env (before ++ line :: after) = Some env' ->
  manual_env_line line = Assign name v ->
  (forall l k x,
      In l after -> manual_env_line l = Assign k x -> k <> name) ->
  getenv env' name = Some v.
Proof.
  intros L E F. rewrite manual_env_loader_app in L.
  destruct (manual_env_loader accepts env before) as [env1|]; [|discriminate].
  cbn [manual_env_loader] in L. rewrite E in L.
  destruct (accepts name v); [|discriminate].
  rewrite (@manual_env_loader_frame accepts after name F _ _ L). unfold getenv.
  apply dict_get_set_same.
Qed.

(** X19.  What the loop leaves in the environment.  A name that no line
    assigns keeps the value it had; a name that a line assigns has the value
    of the last such line, whatever the environment held for it before; and
    when that name is [GEMINI_API_KEY] and the value is not empty,
    [get_api_key] returns it. *)
Theorem manual_env_loader_overrides (accepts : str -> str -> bool)
  (env : environ) (lines : list str) (env' : environ) :
  manual_env_loader accepts env lines = Some env' ->
  (forall name,
      (forall line k v,
          In line lines -> manual_env_line line = Assign k v -> k <> name) ->
      getenv env' name = getenv env name) /\
  (forall before line after name v,
      lines = before ++ line :: after ->
      manual_env_line line = Assign name v ->
      (forall l k x,
          In l after -> manual_env_line l = Assign k x -> k <> name) ->
      getenv env' name = Some v /\
      (name = lit "GEMINI_API_KEY" -> v <> [] -> api_key_of env' = Some v)).
Proof.
  intros L. split.
  - intros name F. exact (@manual_env_loader_frame accepts lines name F _ _ L).
  - intros before line after name v -> E F.
    pose proof (@manual_env_loader_last accepts _ _ _ _ _ _ _ L E F) as G.
    split; [exact G|]. intros -> Nv. unfold api_key_of, get_api_key.
    rewrite G. destruct v; [contradiction | reflexivity].
Qed.

Lemma manual_env_loader_overrides_witness :
  exists env',
    manual_env_loader (fun _ _ => true) sample_environ sample_env_lines
    = Some env' /\
    getenv env' (lit "HOME") = Some (lit "/root") /\
    getenv env' (lit "GEMINI_API_KEY") = Some (lit "fresh") /\
    api_key_of env' = Some (lit "fresh").
Proof.
  destruct (manual_env_loader (fun _ _ => true) sample_environ
              sample_env_lines) as [env'|] eqn:L;
    [|vm_compute in L; discriminate].
  exists env'. split; [reflexivity|].
  destruct (@manual_env_loader_overrides _ _ _ _ L) as [A B].
  split.
  - rewrite (A (lit "HOME")); [reflexivity|].
    intros line k v I E ->. simpl in I.
    destruct I as [<- | [<- | [<- | []]]]; vm_compute in E; discriminate.
  - destruct (B [lit "# keys" ++ [10]]
                (lit "GEMINI_API_KEY=" ++ [34] ++ lit "fresh" ++ [34; 10])
                [lit "OTHER = 1" ++ [10]]
                (lit "GEMINI_API_KEY") (lit "fresh")) as [G K].
    + reflexivity.
    + vm_compute. reflexivity.
    + intros l k x I E ->. simpl in I. destruct I as [<- | []].
      vm_compute in E. discriminate.
    + split; [exact G|]. apply K; [reflexivity | discriminate].
Defined.

(** On the lines that were read, the loop raises exactly when some line
    gives an assignment that [os.environ] refuses. *)
Lemma manual_env_loader_none (accepts : str -> str -> bool)
  (lines : list str) :
  forall env,
    manual_env_loader accepts env lines = None <->
    exists line k v,
      In line lines /\ manual_env_line line = Assign k v /\
      accepts k v = false.
Proof.
  induction lines as [|line lines IH]; intros env; cbn [manual_env_loader].
  - split; [discriminate | intros (l & k & v & [] & _)].
  - destruct (manual_env_line line) as [|k v|] eqn:E.
    + rewrite IH. split; intros (l & k & v & I & A & R).
      * exists l, k, v. split; [right; exact I | auto].
      * destruct I as [<- | I]; [congruence|]. exists l, k, v. auto.
    + destruct (accepts k v) eqn:Acc.
      * rewrite IH. split; intros (l & k' & v' & I & A & R).
        -- exists l, k', v'. split; [right; exact I | auto].
        -- destruct I as [<- | I]; [|exists l, k', v'; auto].
           rewrite E in A. injection A as <- <-. congruence.
      * split; [|reflexivity]. intros _. exists line, k, v.
        split; [left; reflexivity | auto].
    + destruct (@manual_env_line_unpacks line E).
Qed.

(** X20.  Without a [.env] file the fallback changes nothing.  With one, it
    ends with an exception, and the program with it, exactly when the file
    cannot be opened, when reading its lines raises, or when a line that
    was read gives an assignment that [os.environ] refuses. *)
Theorem manual_env_fallback_fails (accepts : str -> str -> bool)
  (env : environ) (f : env_file) :
  manual_env_fallback accepts env NoEnvFile = Some env /\
  (manual_env_fallback accepts env f = None <->
   f = EnvUnopenable \/
   exists lines complete,
     f = EnvLines lines complete /\
     (complete = false \/
      exists line k v,
        In line lines /\ manual_env_line line = Assign k v /\
        accepts k v = false)).
Proof.
  split; [reflexivity|]. destruct f as [| |lines complete];
    cbn [manual_env_fallback].
  - split; [discriminate|]. intros [E | (l & c & E & _)]; discriminate.
  - split; [auto | reflexivity].
  - pose proof (@manual_env_loader_none accepts lines env) as N.
    destruct (manual_env_loader accepts env lines) as [env'|].
    + destruct complete.
      * split; [discriminate|].
        intros [E | (l & c & E & D)]; [discriminate|].
        injection E as <- <-. destruct D as [C | R]; [discriminate|].
        apply N in R. discriminate.
      * split; [|reflexivity]. intros _. right. exists lines, false. auto.
    + split; [|reflexivity]. intros _. right. exists lines, complete.
      split; [reflexivity|]. right. apply N. reflexivity.
Qed.

(** ** Runs on a history file that the decoder reads back *)

Lemma json_loads_dumps_strings (l : list str) :
  json_loads (json_dumps (JArr (List.map JStr l)))
  = Parsed (JArr (List.map JStr l)) [].
Proof.
  unfold json_loads, json_dumps.
  pose proof (encode_strings_length 0 l) as Len.
  set (text := encode 0 (JArr (List.map JStr l))) in *.
  assert (E : skip_ws text = text ++ []).
  { rewrite <- (app_nil_r text) at 1. apply skip_ws_array. }
  rewrite E. unfold text. rewrite scan_once_strings by (fold text; lia).
  reflexivity.
Qed.




(** An object of two members that are strings, as the encoder writes it at
    any nesting level, is read back. *)
Lemma scan_once_two_strings (level : nat) (k1 k2 c a rest : str) (n : nat) :
  scan_once (S (S (S (S n))))
    (encode level (JObj [(k1, JStr c); (k2, JStr a)]) ++ rest)
  = Parsed (JObj (dict_of_pairs [(k1, JStr c); (k2, JStr a)])) rest.
Proof.
  rewrite encode_object, encode_members_cons.
  cbn [encode_members List.map List.concat].
  rewrite <- app_comm_cons, <- !app_assoc.
  erewrite scan_once_brace;
    [| rewrite skip_ws_indent, encode_member_app;
       apply skip_ws_stop; reflexivity].
  erewrite object_loop_next;
    [ | apply scanstring_escaped
      | apply skip_ws_stop; reflexivity
      | cbn [skip_ws]; change (is_ws 32) with true; cbv iota;
        cbn [encode]; rewrite skip_ws_string;
        apply scan_once_string
      | rewrite <- app_comm_cons; apply skip_ws_stop; reflexivity
      | rewrite <- !app_assoc, skip_ws_indent, encode_member_app;
        apply skip_ws_stop; reflexivity ].
  erewrite object_loop_close;
    [ | apply scanstring_escaped
      | apply skip_ws_stop; reflexivity
      | cbn [skip_ws]; change (is_ws 32) with true; cbv iota;
        cbn [encode]; rewrite skip_ws_string;
        apply scan_once_string
      | cbn [app]; rewrite skip_ws_indent; reflexivity ].
  reflexivity.
Qed.

Lemma skip_ws_object (level : nat) (kv : str * json) (d : list (str * json))
  (rest : str) :
  skip_ws (encode level (JObj (kv :: d)) ++ rest)
  = encode level (JObj (kv :: d)) ++ rest.
Proof. rewrite encode_object. reflexivity. Qed.

(** An answer of the shape the prompt asks for is read as such. *)
Lemma json_loads_schema_answer (c a : str) :
  json_loads (schema_answer c a)
  = Parsed
      (JObj [(lit "instagram_post",
              JObj [(lit "caption_text", JStr c);
                    (lit "angle_description", JStr a)])]) [].
Proof.
  unfold json_loads, schema_answer, json_dumps.
  rewrite encode_object. cbn [encode_members List.map List.concat].
  rewrite skip_ws_stop by reflexivity.
  match goal with
  | |- context [scan_once ?f (_ :: ?t)] =>
      assert (L : (1 <= length t)%nat)
        by (unfold newline_indent; cbn [app length]; lia);
      replace f with (S (S (S (S (S (S (2 * length t - 2)%nat))))))
        by (cbn [length]; lia)
  end.
  erewrite scan_once_brace;
    [| rewrite skip_ws_indent, encode_member_app;
       apply skip_ws_stop; reflexivity].
  erewrite object_loop_close;
    [ | apply scanstring_escaped
      | apply skip_ws_stop; reflexivity
      | cbn [skip_ws]; change (is_ws 32) with true; cbv iota;
        rewrite skip_ws_object; apply scan_once_two_strings
      | cbn [app]; rewrite skip_ws_indent; reflexivity ].
  reflexivity.
Qed.

(** X11.  A history file that holds a JSON list of strings instead of a
    mapping is loaded as it is, and a run that gets an answer of the shape
    the prompt asks for, with an angle that is not empty, ends with an
    uncaught [TypeError]: at the test for earlier angles when the list
    holds the article URL, when the angle is recorded otherwise.  (The
    terminal that takes the printed result is not part of the model.) *)
Theorem main_crashes_on_list_history (w : world) (doc : soup)
  (l : list str) (c a : str) :
  opt_truthy (gemini_api_key w) || opt_truthy (google_api_key w) = true ->
  response w = Page doc ->
  arg_url w <> [] ->
  encodable (json_dumps (JArr (List.map JStr l))) = true ->
  history_file w = Text (json_dumps (JArr (List.map JStr l))) ->
  answer w = ReplyText (schema_answer c a) ->
  a <> [] ->
  main w = Crashed TypeError.
Proof.
  intros K P U _ F A Na.
  eapply (@main_type_error_on_other_json w doc (JArr (List.map JStr l))
            (schema_answer c a)).
  - exact K.
  - exact P.
  - exact U.
  - rewrite F. unfold load_history. rewrite json_loads_dumps_strings.
    reflexivity.
  - discriminate.
  - exact A.
  - apply json_loads_schema_answer.
  - unfold normalize, resolve_caption, post_process, dict_has.
    cbn. reflexivity.
  - cbn. destruct a; [contradiction | reflexivity].
Qed.

Lemma main_crashes_on_list_history_witness :
  main list_history_world = Crashed TypeError.
Proof.
  apply (@main_crashes_on_list_history list_history_world sample_doc
           [lit "older angle"] (lit "Hello") (lit "health angle")).
  - reflexivity.
  - reflexivity.
  - discriminate.
  - vm_compute. reflexivity.
  - reflexivity.
  - reflexivity.
  - discriminate.
Defined.
